(** * UNFS3 filehandle core: fh.c and fh_cache.c

    A shallow embedding of the low-level filehandle routines (fh.c) and of
    the filehandle cache (fh_cache.c), with the properties of the handle
    codec, the resolver and the path cache stated against it.  The length
    check of the exports lexer, [copy_text], is embedded as well.

    Conventions of the embedding:
    - C strings are lists of characters; the terminating NUL is the end of
      the list, except inside the work buffer of [fh_comp_raw], where the
      code writes NUL bytes in place and the buffer is read back up to the
      first NUL;
    - [uint32] values, device and inode numbers and LRU stamps are [Z];
      small counters and array indices ([pos], [len], [fh_cache_max]) are
      [nat];
    - the host filesystem is an oracle, record [filesystem]: the code only
      ever calls [lstat], [opendir]/[readdir] and the ext2 version ioctl;
    - module-level variables ([st_cache_valid], [st_cache], the cache array
      and its counters) are the fields of [state], passed explicitly;
    - storage the code reads before writing it (the local [fh] of
      [fh_comp_raw], the local [buf] of [fh_rec], the static [new] of
      [fh_extend]) is an explicit argument holding its previous content. *)

From Stdlib Require Import ZArith Ascii Strings.Byte Lia.
From stdpp Require Import base decidable option list numbers strings.

(** ** Characters and C strings *)

Definition cstring := list ascii.

Definition lit (s : string) : cstring := String.list_ascii_of_string s.

Definition slash : ascii := "/"%char.
Definition NUL : ascii := "000"%char.

(** The string seen through a [char *] into a buffer: everything up to the
    first NUL. *)
Fixpoint c_str (buf : list ascii) : cstring :=
  match buf with
  | [] => []
  | x :: buf' => if decide (x = NUL) then [] else x :: c_str buf'
  end.

(** [strchr s c]: the offset of the first [c] in the C string at [s]. *)
Fixpoint strchr (s : list ascii) (c : ascii) : option nat :=
  match s with
  | [] => None
  | x :: s' =>
      if decide (x = c) then Some 0
      else if decide (x = NUL) then None
      else S <$> strchr s' c
  end.

(** [sprintf(obj, "%s/%s", a, b)] *)
Definition sprintf_s_slash_s (a b : cstring) : cstring := a ++ slash :: b.

(** ** Machine integers *)

Definition uint32 (n : Z) : Z := (n mod 2 ^ 32)%Z.

(** [#define FH_HASH(n) ((n + 3 * (n >> 8) + 5 * (n >> 16)) & 0xFF)] *)
Definition FH_HASH (n : Z) : Z :=
  Z.land (n + 3 * Z.shiftr n 8 + 5 * Z.shiftr n 16) 255.

(** ** struct stat, as far as the code reads it *)

Record stat := mkstat {
  st_dev : Z;
  st_ino : Z;
  st_mode : Z;
  st_gen : Z
}.

Definition S_IFMT : Z := 61440.   (* 0170000 *)
Definition S_IFDIR : Z := 16384.  (* 0040000 *)
Definition S_IFREG : Z := 32768.  (* 0100000 *)

Definition S_IFLNK : Z := 40960.  (* 0120000 *)

Definition S_ISDIR (m : Z) : bool := bool_decide (Z.land m S_IFMT = S_IFDIR).
Definition S_ISREG (m : Z) : bool := bool_decide (Z.land m S_IFMT = S_IFREG).
Definition S_ISLNK (m : Z) : bool := bool_decide (Z.land m S_IFMT = S_IFLNK).

(** ** The host filesystem

    [lstat] returns [None] for the C result [-1].  [readdir] stands for
    [opendir] followed by [readdir] until it returns NULL: [None] when
    [opendir] fails, otherwise the entry names in the order the host yields
    them.  [getversion] is [open] + [ioctl(EXT2_IOC_GETVERSION)] + [close]
    on a path, [fgetversion] the ioctl on a descriptor already open. *)
Record filesystem := mkfs {
  lstat : cstring → option stat;
  readdir : cstring → option (list cstring);
  getversion : cstring → option Z;
  fgetversion : Z → option Z
}.

(** The three builds of [get_gen], selected by [HAVE_STRUCT_STAT_ST_GEN] and
    [HAVE_LINUX_EXT2_FS_H]. *)
Inductive gen_build := GEN_STAT | GEN_EXT2 | GEN_INO.

(** ** unfs3_fh_t

    [fh.h] is not among the sources; the fields are the ones fh.c uses. *)
Record unfs3_fh_t := mkfh {
  dev : Z;
  ino : Z;
  gen : Z;
  len : nat;
  inos : list Z
}.

Definition set_dev (fh : unfs3_fh_t) (v : Z) : unfs3_fh_t :=
  mkfh v (ino fh) (gen fh) (len fh) (inos fh).
Definition set_ino (fh : unfs3_fh_t) (v : Z) : unfs3_fh_t :=
  mkfh (dev fh) v (gen fh) (len fh) (inos fh).
Definition set_gen (fh : unfs3_fh_t) (v : Z) : unfs3_fh_t :=
  mkfh (dev fh) (ino fh) v (len fh) (inos fh).
Definition set_len (fh : unfs3_fh_t) (v : nat) : unfs3_fh_t :=
  mkfh (dev fh) (ino fh) (gen fh) v (inos fh).
(** [fh.inos[i] = v] *)
Definition set_inos (fh : unfs3_fh_t) (i : nat) (v : Z) : unfs3_fh_t :=
  mkfh (dev fh) (ino fh) (gen fh) (len fh) (<[i := v]> (inos fh)).

(** [len] is an [unsigned char]. *)
Definition uchar (n : nat) : nat := n mod 256.

(** ** nfs_fh3: the opaque bytes of a handle as they come off the wire;
    [data_len] is the length of the list. *)
Definition nfs_fh3 := list byte.

Definition byte_at (b : nfs_fh3) (i : nat) : Z :=
  Z.of_N (Byte.to_N (nth i b x00)).

(** Modelled from the spec: fh.h (the declaration of the packed struct and
    FH_MINLEN) is missing; section 6 of the specification gives the layout,
    little-endian: dev at 0, ino at 4, gen at 8, the len byte at 12, inos
    from 13 on, and a fixed header of 13 bytes. *)
Definition FH_MINLEN : Z := 13.
Definition sizeof_dev : Z := 4.
Definition sizeof_ino : Z := 4.
Definition sizeof_gen : Z := 4.
Definition sizeof_len : Z := 1.

Definition le32 (b : nfs_fh3) (off : nat) : Z :=
  (byte_at b off + 2 ^ 8 * byte_at b (off + 1)
   + 2 ^ 16 * byte_at b (off + 2) + 2 ^ 24 * byte_at b (off + 3))%Z.

(** The cast of [fh.data.data_val] to a pointer to [unfs3_fh_t]: the struct
    read through the bytes of the handle. *)
Definition fh_view (b : nfs_fh3) : unfs3_fh_t :=
  mkfh (le32 b 0) (le32 b 4) (le32 b 8)
       (Z.to_nat (byte_at b 12))
       (map (λ x, Z.of_N (Byte.to_N x)) (drop 13 b)).

(** ** The path-cache slot and the module-level state *)

Record unfs3_cache_t := mkslot {
  c_dev : Z;
  c_ino : Z;
  c_path : cstring;
  c_use : Z
}.

Record state := mkstate {
  st_cache_valid : bool;
  st_cache : stat;
  fh_cache : list unfs3_cache_t;
  fh_cache_max : nat;
  fh_cache_use : Z;
  fh_cache_hit : Z;
  fh_cache_time : Z
}.

Definition set_st_cache (s : state) (valid : bool) (buf : stat) : state :=
  mkstate valid buf (fh_cache s) (fh_cache_max s) (fh_cache_use s)
          (fh_cache_hit s) (fh_cache_time s).
Definition set_st_cache_valid (s : state) (valid : bool) : state :=
  set_st_cache s valid (st_cache s).
Definition set_fh_cache (s : state) (c : list unfs3_cache_t) : state :=
  mkstate (st_cache_valid s) (st_cache s) c (fh_cache_max s) (fh_cache_use s)
          (fh_cache_hit s) (fh_cache_time s).
Definition set_fh_cache_max (s : state) (n : nat) : state :=
  mkstate (st_cache_valid s) (st_cache s) (fh_cache s) n (fh_cache_use s)
          (fh_cache_hit s) (fh_cache_time s).
Definition set_fh_cache_use (s : state) (n : Z) : state :=
  mkstate (st_cache_valid s) (st_cache s) (fh_cache s) (fh_cache_max s) n
          (fh_cache_hit s) (fh_cache_time s).
Definition set_fh_cache_hit (s : state) (n : Z) : state :=
  mkstate (st_cache_valid s) (st_cache s) (fh_cache s) (fh_cache_max s)
          (fh_cache_use s) n (fh_cache_time s).
Definition set_fh_cache_time (s : state) (n : Z) : state :=
  mkstate (st_cache_valid s) (st_cache s) (fh_cache s) (fh_cache_max s)
          (fh_cache_use s) (fh_cache_hit s) n.

Definition empty_slot : unfs3_cache_t := mkslot 0 0 [] 0.

(** [fh_cache[idx]]; the array has CACHE_ENTRIES slots. *)
Definition slot (s : state) (idx : nat) : unfs3_cache_t :=
  default empty_slot (fh_cache s !! idx).

(** * A model of the host: a directory tree

    The code is written against any host ([filesystem] above).  Where a
    property needs a filesystem that behaves like one, it is stated over
    this model: the objects of the tree, each under its key (the names from
    the root down to it, the root under the empty key), in the order
    [readdir] yields them.

    The model is one of a tree without symbolic links.  Path resolution
    ([tree_step]) goes through directories only and [tree_readdir] opens
    directories only, where a host follows a symbolic link in every
    component but the last for [lstat] and in every component for
    [opendir].  A property that depends on the exact path found is
    therefore stated for trees that hold no symbolic link ([no_symlinks]);
    [fs_symlink] below is a host with one, on which the same code finds
    another path.  The model also accepts a trailing slash after an object
    that is no directory, where a host fails; no path a theorem resolves
    has one. *)

Record object := mkobj {
  o_key : list cstring;
  o_stat : stat
}.

Definition tree := list object.

Fixpoint tree_lookup (t : tree) (k : list cstring) : option stat :=
  match t with
  | [] => None
  | o :: t' => if decide (o_key o = k) then Some (o_stat o)
               else tree_lookup t' k
  end.

(** The name under which [o] is an entry of directory [k], if it is one. *)
Definition child_name (k : list cstring) (o : object) : option cstring :=
  match last (o_key o) with
  | Some n => if decide (o_key o = k ++ [n]) then Some n else None
  | None => None
  end.

Definition children (t : tree) (k : list cstring) : list cstring :=
  omap (child_name k) t.

(** The components of a path string, empty ones included. *)
Fixpoint split_path (s : cstring) : list cstring :=
  match s with
  | [] => [[]]
  | c :: s' =>
      if decide (c = slash) then [] :: split_path s'
      else match split_path s' with
           | [] => [[c]]
           | w :: ws => (c :: w) :: ws
           end
  end.

(** One step of path resolution.  Empty components (doubled and trailing
    slashes) are skipped; any other component needs a directory to be
    looked up in. *)
Definition tree_step (t : tree) (cur : option (list cstring))
    (comp : cstring) : option (list cstring) :=
  match cur with
  | None => None
  | Some k =>
      if decide (comp = []) then Some k
      else
        match tree_lookup t k with
        | None => None
        | Some st =>
            if negb (S_ISDIR (st_mode st)) then None
            else if decide (comp = lit ".") then Some k
            else if decide (comp = lit "..") then Some (removelast k)
            else
              match tree_lookup t (k ++ [comp]) with
              | Some _ => Some (k ++ [comp])
              | None => None
              end
        end
  end.

(** Resolution starts at the root: the server runs with the root as its
    working directory and the code passes absolute paths. *)
Definition tree_namei (t : tree) (s : cstring) : option (list cstring) :=
  if decide (s = []) then None
  else foldl (tree_step t) (Some []) (split_path s).

Definition tree_lstat (t : tree) (s : cstring) : option stat :=
  match tree_namei t s with
  | Some k => tree_lookup t k
  | None => None
  end.

Definition tree_readdir (t : tree) (s : cstring) : option (list cstring) :=
  match tree_namei t s with
  | Some k =>
      match tree_lookup t k with
      | Some st =>
          if S_ISDIR (st_mode st)
          then Some (lit "." :: lit ".." :: children t k)
          else None
      | None => None
      end
  | None => None
  end.

Definition tree_fs (t : tree) : filesystem :=
  mkfs (tree_lstat t) (tree_readdir t)
       (λ s, st_gen <$> tree_lstat t s) (λ _, None).

(** The path string of a key: ["/a/b/c"] for [a; b; c]; the leads [fh_rec]
    scans are [slash :: path_of k], that is ["/"], ["//a"], ["//a/b"]. *)
Fixpoint path_of (k : list cstring) : cstring :=
  match k with
  | [] => []
  | n :: k' => slash :: n ++ path_of k'
  end.

(** A path component: a string without a slash and, as every C string,
    without a NUL. *)
Definition component (c : cstring) : Prop := (slash ∉ c) ∧ (NUL ∉ c).

(** A name a directory entry can have. *)
Definition valid_name (n : cstring) : Prop :=
  n ≠ [] ∧ (slash ∉ n) ∧ (NUL ∉ n) ∧ n ≠ lit "." ∧ n ≠ lit "..".

Definition is_dir_in (t : tree) (k : list cstring) : Prop :=
  match tree_lookup t k with
  | Some st => S_ISDIR (st_mode st) = true
  | None => False
  end.

(** A well-formed tree: the root is a directory, names are valid and every
    object lies in a directory of the tree. *)
Definition wf_tree (t : tree) : Prop :=
  is_dir_in t []
  ∧ Forall (λ o, Forall valid_name (o_key o)) t
  ∧ Forall (λ o, o_key o = [] ∨ is_dir_in t (removelast (o_key o))) t.

(** No hard links: no two objects share device and inode number, and both
    numbers fit the 32-bit fields of the handle. *)
Definition no_links (t : tree) : Prop :=
  NoDup ((λ o, (st_dev (o_stat o), st_ino (o_stat o))) <$> t)
  ∧ Forall (λ o, uint32 (st_dev (o_stat o)) = st_dev (o_stat o)
                 ∧ uint32 (st_ino (o_stat o)) = st_ino (o_stat o)) t.

(** No symbolic links: no object of the tree is one. *)
Definition no_symlinks (t : tree) : Prop :=
  Forall (λ o, S_ISLNK (st_mode (o_stat o)) = false) t.

#[global] Instance no_symlinks_dec t : Decision (no_symlinks t).
Proof. unfold no_symlinks. apply _. Defined.

#[global] Instance valid_name_dec n : Decision (valid_name n).
Proof. unfold valid_name. apply _. Defined.

#[global] Instance is_dir_in_dec t k : Decision (is_dir_in t k).
Proof. unfold is_dir_in. destruct (tree_lookup t k); apply _. Defined.

#[global] Instance wf_tree_dec t : Decision (wf_tree t).
Proof. unfold wf_tree. apply _. Defined.

#[global] Instance no_links_dec t : Decision (no_links t).
Proof. unfold no_links. apply _. Defined.

(** ** Trees and states of the scenarios *)

Definition mode_dir : Z := 16877.   (* S_IFDIR | 0755 *)
Definition mode_reg : Z := 33188.   (* S_IFREG | 0644 *)

(** The tree /a/b/c with inodes 10, 20, 30 on device 1 (the root has inode
    2); c is a regular file. *)
Definition tree_abc : tree :=
  [ mkobj [] (mkstat 1 2 mode_dir 0);
    mkobj [lit "a"] (mkstat 1 10 mode_dir 0);
    mkobj [lit "a"; lit "b"] (mkstat 1 20 mode_dir 0);
    mkobj [lit "a"; lit "b"; lit "c"] (mkstat 1 30 mode_reg 0) ].

(** A root directory with one file under two names, a and b. *)
Definition tree_link : tree :=
  [ mkobj [] (mkstat 1 2 mode_dir 0);
    mkobj [lit "a"] (mkstat 1 10 mode_reg 0);
    mkobj [lit "b"] (mkstat 1 10 mode_reg 0) ].

Definition stat0 : stat := mkstat 0 0 0 0.

(** What an uninitialised [unfs3_fh_t] on the stack may hold, for an
    [FH_MAXLEN] of 4: here a len byte of 7. *)
Definition stack_junk : unfs3_fh_t := mkfh 0 0 0 7 [0; 0; 0; 0]%Z.

(** The handle of /a/b/c in [tree_abc], as [fh_comp_raw] composes it. *)
Definition fh_abc : unfs3_fh_t := mkfh 1 30 0 3 [10; 20; 30; 0]%Z.

(** The wire bytes of a handle with dev 1, ino 20, gen 0, len 2 and the
    trail [10; 20]. *)
Definition nfh_ab : nfs_fh3 :=
  [x01; x00; x00; x00; x14; x00; x00; x00; x00; x00; x00; x00; x02;
   x0a; x14].

(** The wire bytes of a handle with dev 1, ino 30, gen 0, len 3 and the
    trail [10; 20; 30]. *)
Definition nfh_abc : nfs_fh3 :=
  [x01; x00; x00; x00; x1e; x00; x00; x00; x00; x00; x00; x00; x03;
   x0a; x14; x1e].

(** A cache of four slots whose first slot says that (1, 30) is /a/b/x:
    the path /a/b/c had before it was renamed. *)
Definition state_renamed : state :=
  mkstate false stat0
    [mkslot 1 30 (lit "/a/b/x") 1; empty_slot; empty_slot; empty_slot]
    1 0 0 1.

(** The state after [fh_cache_init] on a fresh process. *)
Definition state0 (entries : nat) : state :=
  mkstate false stat0 (replicate entries empty_slot) 0 0 0 0.

(** A root directory with two files: a, whose inode number needs 33 bits,
    and b, whose inode number is that of a cut to 32 bits. *)
Definition tree_wide : tree :=
  [ mkobj [] (mkstat 1 2 mode_dir 0);
    mkobj [lit "a"] (mkstat 1 4294967301 mode_reg 0);
    mkobj [lit "b"] (mkstat 1 5 mode_reg 0) ].

(** The wire bytes of the handle of /a in [tree_wide]: dev 1, ino 5 (the
    inode number cut to 32 bits), gen 0, len 1 and the trail [5]. *)
Definition nfh_wide : nfs_fh3 :=
  [x01; x00; x00; x00; x05; x00; x00; x00; x00; x00; x00; x00; x01; x05].

(** A cache of four slots whose first slot says that (1, 30) is /a/b/c, as
    it is in [tree_abc]. *)
Definition state_cached : state :=
  mkstate false stat0
    [mkslot 1 30 (lit "/a/b/c") 1; empty_slot; empty_slot; empty_slot]
    1 0 0 1.

(** A host with a symbolic link: the root holds l, a symbolic link to a
    with inode 263, and the directory a with inode 10, in that order; a
    holds the file b with inode 20.  [lstat] and [opendir] follow l where
    it is not the last component.  The tables list the paths the code
    asks for; the hashes of 263 and 10 are both 10. *)
Definition mode_lnk : Z := 41471.   (* S_IFLNK | 0777 *)

Fixpoint assoc {A} (k : cstring) (l : list (cstring * A)) : option A :=
  match l with
  | [] => None
  | (k', v) :: l' => if decide (k' = k) then Some v else assoc k l'
  end.

Definition fs_symlink : filesystem :=
  let root := mkstat 1 2 mode_dir 0 in
  let l := mkstat 1 263 mode_lnk 0 in
  let a := mkstat 1 10 mode_dir 0 in
  let b := mkstat 1 20 mode_reg 0 in
  let entries_root := [lit "."; lit ".."; lit "l"; lit "a"] in
  let entries_a := [lit "."; lit ".."; lit "b"] in
  mkfs
    (λ p, assoc p
       [ (lit "/", root); (lit "/l", l); (lit "/a", a);
         (lit "/a/b", b); (lit "/l/b", b);
         (lit "//.", root); (lit "//..", root);
         (lit "//l", l); (lit "//a", a);
         (lit "//l/.", a); (lit "//l/..", root); (lit "//l/b", b);
         (lit "//a/.", a); (lit "//a/..", root); (lit "//a/b", b) ])
    (λ p, assoc p
       [ (lit "/", entries_root);
         (lit "/l", entries_a); (lit "/a", entries_a);
         (lit "//l", entries_a); (lit "//a", entries_a) ])
    (λ _, None) (λ _, None).

(** A handle that differs from [fh_abc] in the generation number and in
    the trail bytes past [len]. *)
Definition fh_abc_other : unfs3_fh_t := mkfh 1 30 5 3 [10; 20; 30; 99]%Z.

(** * The code *)

Section Build.

(** Constants of the build.  [FH_MAXLEN] (fh.h) and [NFS_MAXPATHLEN] (nfs.h)
    are declared in headers that are not among the sources; fh_cache.c
    defines [CACHE_ENTRIES] as 4096, and nothing in the code depends on the
    value. *)
Variable FH_MAXLEN : nat.
Variable NFS_MAXPATHLEN : nat.
Variable CACHE_ENTRIES : nat.
Variable build : gen_build.

Section Host.

(** The host. *)
Variable fs : filesystem.

(** What the stack holds where the code declares a local without
    initialising it: [unfs3_fh_t fh] in [fh_comp_raw] and [struct stat buf]
    in [fh_rec]. *)
Variable stack_fh : unfs3_fh_t.
Variable stack_buf : stat.

(** ** fh.c *)

Definition FD_NONE : Z := (-1)%Z.

Definition get_gen (obuf : stat) (fd : Z) (path : cstring) : Z :=
  match build with
  | GEN_STAT => uint32 (st_gen obuf)
  | GEN_EXT2 =>
      if negb (S_ISREG (st_mode obuf)) && negb (S_ISDIR (st_mode obuf))
      then 0%Z
      else if decide (fd ≠ FD_NONE) then
        match fgetversion fs fd with
        | None => 0%Z
        | Some g => g
        end
      else
        match getversion fs path with
        | None => 0%Z
        | Some g => g
        end
  | GEN_INO => uint32 (st_ino obuf)
  end.

Definition fh_len (fh : unfs3_fh_t) : Z :=
  uint32 (Z.of_nat (len fh) + sizeof_len + sizeof_dev + sizeof_ino
          + sizeof_gen).

Definition nfh_valid (fh : nfs_fh3) : bool :=
  let obj := fh_view fh in
  (* too small? *)
  if decide (Z.of_nat (length fh) < FH_MINLEN)%Z then false
  (* encoded length different from real length? *)
  else if decide (Z.of_nat (length fh) ≠ fh_len obj) then false
  else true.

Definition fh_valid (fh : unfs3_fh_t) : bool :=
  bool_decide (dev fh ≠ 0%Z) && bool_decide (ino fh ≠ 0%Z).

Definition invalid_fh : unfs3_fh_t :=
  mkfh 0 0 0 0 (replicate FH_MAXLEN 0%Z).

(** The body of the do-while loop of [fh_comp_raw].  [work] is the buffer,
    [last] the offset the pointer [last] has into it.  The loop runs again
    while [last && pos < FH_MAXLEN]; [fuel] only bounds the recursion and does
    not run out when it starts at [S FH_MAXLEN] (lemma [fh_comp_walk_fuel]). *)
Fixpoint fh_comp_walk (fuel : nat) (work : list ascii) (last pos : nat)
    (fh : unfs3_fh_t) : unfs3_fh_t :=
  match fuel with
  | 0 => invalid_fh
  | S fuel' =>
      let work := <[last := slash]> work in
      let last' :=
        (λ k, last + 1 + k) <$> strchr (drop (last + 1) work) slash in
      let work :=
        match last' with
        | Some l => <[l := NUL]> work
        | None => work
        end in
      match lstat fs (c_str work) with
      | None => invalid_fh
      | Some buf =>
          (* store 8 bit hash of the component's inode *)
          let fh := set_inos fh pos (FH_HASH (st_ino buf)) in
          let pos := S pos in
          match last' with
          | Some l =>
              if decide (pos < FH_MAXLEN)
              then fh_comp_walk fuel' work l pos fh
              else invalid_fh        (* path too deep for filehandle *)
          | None => set_len fh (uchar pos)
          end
      end
  end.

(** [work] is [char work[NFS_MAXPATHLEN]] and [strcpy(work, path)] fills
    it without a length check: the function is this one for
    [strlen(path) < NFS_MAXPATHLEN], and the theorems that say what it
    returns for a path carry that bound; a longer path that can be
    stat'ed overruns the buffer. *)
Definition fh_comp_raw (path : cstring) (need_dir : bool) : unfs3_fh_t :=
  match lstat fs path with
  | None => invalid_fh
  | Some buf =>
      (* check for dir if need_dir is set *)
      if need_dir && negb (S_ISDIR (st_mode buf)) then invalid_fh
      else
        let fh := set_dev stack_fh (uint32 (st_dev buf)) in
        let fh := set_ino fh (uint32 (st_ino buf)) in
        let fh := set_gen fh (get_gen buf FD_NONE path) in
        (* special case for root directory *)
        if decide (path = lit "/") then fh
        else fh_comp_walk (S FH_MAXLEN) path 0 0 fh
  end.

(** [new] is the function-static result buffer, [new0] what it holds from
    the call before.  [memcpy(&new, fh, fh_len(fh))] copies the header and
    the first [len] trail bytes; the rest of [new.inos] stays. *)
Definition fh_extend (new0 : unfs3_fh_t) (nfh : nfs_fh3) (dev' ino' gen' : Z)
    : option unfs3_fh_t :=
  let fh := fh_view nfh in
  if decide (len fh = FH_MAXLEN) then None
  else
    let new :=
      mkfh (dev fh) (ino fh) (gen fh) (len fh)
           (list_inserts 0 (take (len fh) (inos fh)) (inos new0)) in
    let new := set_dev new dev' in
    let new := set_ino new ino' in
    let new := set_gen new gen' in
    let new := set_inos new (len new) (FH_HASH ino') in
    let new := set_len new (uchar (len new + 1)) in
    Some new.

(** [post_op_fh3] is the XDR union switched on [handle_follows]; the handle
    is [data_len] and the struct [data_val] points to. *)
Definition post_op_fh3 := option (Z * unfs3_fh_t).

Definition handle_follows (p : post_op_fh3) : bool :=
  match p with
  | Some _ => true
  | None => false
  end.

Definition fh_extend_post (new0 : unfs3_fh_t) (fh : nfs_fh3)
    (dev' ino' gen' : Z) : post_op_fh3 :=
  match fh_extend new0 fh dev' ino' gen' with
  | Some new => Some (fh_len new, new)
  | None => None
  end.

Definition fh_extend_type (s : state) (new0 : unfs3_fh_t) (fh : nfs_fh3)
    (path : cstring) (type : Z) : post_op_fh3 * state :=
  match lstat fs path with
  | None => (None, set_st_cache_valid s false)
  | Some buf =>
      if decide (Z.land (st_mode buf) type ≠ type)
      then (None, set_st_cache_valid s false)
      else
        (fh_extend_post new0 fh (uint32 (st_dev buf)) (uint32 (st_ino buf))
           (get_gen buf FD_NONE path),
         set_st_cache s true buf)
  end.

(** The while loop of [fh_rec] over the entries [readdir] yields.  [buf] is
    the local [struct stat]: a failed [lstat] leaves it as it was, and the
    code then zeroes its [st_dev] and [st_ino].  [descend] is the recursive
    call [fh_rec(fh, pos + 1, obj, result)].  The result is what is written
    to [result] and to [st_cache] when the function returns TRUE. *)
Fixpoint fh_rec_scan (fh : unfs3_fh_t) (pos : nat) (lead : cstring)
    (descend : cstring → option (cstring * stat)) (buf : stat)
    (entries : list cstring) : option (cstring * stat) :=
  match entries with
  | [] => None
  | d_name :: entries' =>
      if decide (length lead + length d_name + 1 < NFS_MAXPATHLEN) then
        let obj := sprintf_s_slash_s lead d_name in
        let buf :=
          match lstat fs obj with
          | Some b => b
          | None => mkstat 0 0 (st_mode buf) (st_gen buf)
          end in
        if decide (st_dev buf = dev fh ∧ st_ino buf = ino fh) then
          (* found the object *)
          Some (sprintf_s_slash_s (drop 1 lead) d_name, buf)
        else if decide (d_name ≠ lit ".." ∧ d_name ≠ lit "." ∧
                        inos fh !! pos = Some (FH_HASH (st_ino buf))) then
          (* might be directory we're looking for, try descending into it *)
          match descend obj with
          | Some r => Some r
          | None => fh_rec_scan fh pos lead descend buf entries'
          end
        else fh_rec_scan fh pos lead descend buf entries'
      else fh_rec_scan fh pos lead descend buf entries'
  end.

(** [fh_rec]: the recursion stops at [pos == fh->len]; [fuel] bounds it and
    is enough from [S (len fh - pos)] on (lemma [fh_rec_fuel]). *)
Fixpoint fh_rec (fuel : nat) (fh : unfs3_fh_t) (pos : nat) (lead : cstring)
    : option (cstring * stat) :=
  match fuel with
  | 0 => None
  | S fuel' =>
      (* went in too deep? *)
      if decide (pos = len fh) then None
      else
        match readdir fs lead with
        | None => None
        | Some entries =>
            fh_rec_scan fh pos lead (fh_rec fuel' fh (S pos)) stack_buf
              entries
        end
  end.

(** [fh] is [None] for the NULL pointer. *)
Definition fh_decomp_raw (s : state) (fh : option unfs3_fh_t)
    : option cstring * state :=
  match fh with
  | None => (None, s)
  | Some fh =>
      (* special case for root directory *)
      if decide (len fh = 0) then (Some (lit "/"), s)
      else
        match fh_rec (S (len fh)) fh 0 (lit "/") with
        | Some (result, buf) => (Some result, set_st_cache s true buf)
        | None => (None, s)     (* could not find object *)
        end
  end.

(** ** fh_cache.c *)

(** [fh_cache_time] is a C [int]: [++fh_cache_time] is this one below
    [INT_MAX], and the theorems about stamps carry that bound. *)
Definition fh_cache_next (s : state) : Z * state :=
  let t := (fh_cache_time s + 1)%Z in
  (t, set_fh_cache_time s t).

Definition fh_cache_init (s : state) : state :=
  set_fh_cache s (replicate CACHE_ENTRIES empty_slot).

(** The for loop of [fh_cache_lru]: [n] iterations are left, [i] is the
    loop variable. *)
Fixpoint fh_cache_lru_scan (s : state) (n i : nat) (best : Z) (best_idx : nat)
    : nat :=
  match n with
  | 0 => best_idx
  | S n' =>
      if decide (c_use (slot s i) = 0%Z) then i
      else if decide (c_use (slot s i) < best)%Z
      then fh_cache_lru_scan s n' (S i) (c_use (slot s i)) i
      else fh_cache_lru_scan s n' (S i) best best_idx
  end.

Definition fh_cache_lru (s : state) : nat * state :=
  (* if cache is not full, we simply hand out the next slot *)
  if decide (Z.of_nat (fh_cache_max s) < Z.of_nat CACHE_ENTRIES - 1)%Z
  then (fh_cache_max s, set_fh_cache_max s (S (fh_cache_max s)))
  else (fh_cache_lru_scan s CACHE_ENTRIES 0 (-1) 0, s).

Definition set_slot (s : state) (idx : nat) (e : unfs3_cache_t) : state :=
  set_fh_cache s (<[idx := e]> (fh_cache s)).

(** [path[0] = 0] leaves the empty string in the slot. *)
Definition fh_cache_inval (s : state) (idx : nat) : state :=
  let s := set_slot s idx (mkslot 0 (c_ino (slot s idx))
                             (c_path (slot s idx)) (c_use (slot s idx))) in
  let s := set_slot s idx (mkslot (c_dev (slot s idx)) 0
                             (c_path (slot s idx)) (c_use (slot s idx))) in
  let s := set_slot s idx (mkslot (c_dev (slot s idx)) (c_ino (slot s idx))
                             (c_path (slot s idx)) 0) in
  set_slot s idx (mkslot (c_dev (slot s idx)) (c_ino (slot s idx)) []
                    (c_use (slot s idx))).

(** The for loop of [fh_cache_index]; [None] is the result -1. *)
Fixpoint fh_cache_index_scan (s : state) (n i : nat) (dev' ino' : Z)
    : option nat :=
  match n with
  | 0 => None
  | S n' =>
      if decide (c_dev (slot s i) = dev' ∧ c_ino (slot s i) = ino')
      then Some i
      else fh_cache_index_scan s n' (S i) dev' ino'
  end.

Definition fh_cache_index (s : state) (dev' ino' : Z) : option nat :=
  fh_cache_index_scan s (fh_cache_max s + 1) 0 dev' ino'.

Definition fh_cache_add (s : state) (dev' ino' : Z) (path : cstring)
    : state :=
  (* if we already have a matching entry, overwrite that;
     otherwise overwrite least recently used entry *)
  let '(idx, s) :=
    match fh_cache_index s dev' ino' with
    | Some idx => (idx, s)
    | None => fh_cache_lru s
    end in
  let s := fh_cache_inval s idx in
  let s := set_slot s idx (mkslot dev' (c_ino (slot s idx))
                             (c_path (slot s idx)) (c_use (slot s idx))) in
  let s := set_slot s idx (mkslot (c_dev (slot s idx)) ino'
                             (c_path (slot s idx)) (c_use (slot s idx))) in
  let '(t, s) := fh_cache_next s in
  let s := set_slot s idx (mkslot (c_dev (slot s idx)) (c_ino (slot s idx))
                             (c_path (slot s idx)) t) in
  set_slot s idx (mkslot (c_dev (slot s idx)) (c_ino (slot s idx)) path
                    (c_use (slot s idx))).

Definition fh_cache_lookup (s : state) (dev' ino' : Z)
    : option cstring * state :=
  match fh_cache_index s dev' ino' with
  | Some i =>
      (* check whether path to <dev,ino> relation still holds *)
      match lstat fs (c_path (slot s i)) with
      | None =>
          (* object does not exist any more *)
          (None, fh_cache_inval s i)
      | Some buf =>
          if decide (st_dev buf = dev' ∧ st_ino buf = ino') then
            (* cache hit, update time on cache entry *)
            let '(t, s) := fh_cache_next s in
            let s := set_slot s i (mkslot (c_dev (slot s i))
                                     (c_ino (slot s i)) (c_path (slot s i))
                                     t) in
            (* update stat cache *)
            let s := set_st_cache s true buf in
            (Some (c_path (slot s i)), s)
          else
            (* path to <dev,ino> relation has changed *)
            (None, fh_cache_inval s i)
      end
  | None => (None, s)
  end.

(** [fh_cache_use] and [fh_cache_hit] are C [int]s: the increments are
    these below [INT_MAX], and the theorems about the counters carry that
    bound. *)
Definition fh_decomp (s : state) (fh : nfs_fh3) : option cstring * state :=
  let obj := fh_view fh in
  if negb (nfh_valid fh) then (None, set_st_cache_valid s false)
  else
    (* try lookup in cache, increase cache usage counter *)
    let '(result, s) := fh_cache_lookup s (dev obj) (ino obj) in
    let s := set_fh_cache_use s (fh_cache_use s + 1) in
    match result with
    | None =>
        (* not found, resolve the hard way *)
        let '(result, s) := fh_decomp_raw s (Some obj) in
        match result with
        | Some path =>
            (* add to cache for later use if resolution ok *)
            (result, fh_cache_add s (dev obj) (ino obj) path)
        | None =>
            (* could not resolve in any way *)
            (result, set_st_cache_valid s false)
        end
    | Some _ =>
        (* found, update cache hit statistic *)
        (result, set_fh_cache_hit s (fh_cache_hit s + 1))
    end.

Definition fh_comp (s : state) (path : cstring) (need_dir : bool)
    : unfs3_fh_t * state :=
  let res := fh_comp_raw path need_dir in
  if fh_valid res
  then (res, fh_cache_add s (dev res) (ino res) path)
  else (res, s).

(** Where the [const char *path] of [fh_cache_add] and [fh_comp] points: at
    a string of the caller's own, or at the [path] field of a cache slot,
    which is the pointer [fh_cache_lookup] and [fh_decomp] return on a
    hit.  [fh_cache_add] and [fh_comp] above are the functions for a
    string of the caller's own.  With a pointer into the cache the string
    is read where the code reads it: [fh_comp_raw] reads it before the
    cache is written, [strcpy(fh_cache[idx].path, path)] after
    [fh_cache_inval(idx)] has emptied the slot. *)
Inductive path_ptr :=
  | own_string (p : cstring)
  | cache_slot_path (idx : nat).

Definition path_at (s : state) (p : path_ptr) : cstring :=
  match p with
  | own_string p => p
  | cache_slot_path idx => c_path (slot s idx)
  end.

Definition fh_cache_add_ptr (s : state) (dev' ino' : Z) (path : path_ptr)
    : state :=
  let '(idx, s) :=
    match fh_cache_index s dev' ino' with
    | Some idx => (idx, s)
    | None => fh_cache_lru s
    end in
  let s := fh_cache_inval s idx in
  let s := set_slot s idx (mkslot dev' (c_ino (slot s idx))
                             (c_path (slot s idx)) (c_use (slot s idx))) in
  let s := set_slot s idx (mkslot (c_dev (slot s idx)) ino'
                             (c_path (slot s idx)) (c_use (slot s idx))) in
  let '(t, s) := fh_cache_next s in
  let s := set_slot s idx (mkslot (c_dev (slot s idx)) (c_ino (slot s idx))
                             (c_path (slot s idx)) t) in
  set_slot s idx (mkslot (c_dev (slot s idx)) (c_ino (slot s idx))
                    (path_at s path) (c_use (slot s idx))).

Definition fh_comp_ptr (s : state) (path : path_ptr) (need_dir : bool)
    : unfs3_fh_t * state :=
  let res := fh_comp_raw (path_at s path) need_dir in
  if fh_valid res
  then (res, fh_cache_add_ptr s (dev res) (ino res) path)
  else (res, s).


(** The shape the module keeps its state in: the array has [CACHE_ENTRIES]
    slots and [fh_cache_max] indexes one of them. *)
Definition state_ok (s : state) : Prop :=
  length (fh_cache s) = CACHE_ENTRIES ∧ fh_cache_max s < CACHE_ENTRIES.

(** A slot is occupied when its [use] stamp is positive. *)
Definition occupied (e : unfs3_cache_t) : Prop := (0 < c_use e)%Z.

(** What [fh_rec] has seen of [obj] when it reports it as the object of
    [fh]: [buf] is its stat buffer after [lstat(obj, &buf)], the stat of
    [obj] or, when [lstat] failed, a zero device and inode number. *)
Definition probed (fh : unfs3_fh_t) (obj : cstring) (buf : stat) : Prop :=
  (lstat fs obj = Some buf
   ∨ (lstat fs obj = None ∧ st_dev buf = 0%Z ∧ st_ino buf = 0%Z))
  ∧ st_dev buf = dev fh ∧ st_ino buf = ino fh.

(** What the cache keeps true of itself between calls.  Stamps lie
    between 0 and the LRU counter, and a slot with stamp 0 has the zero key.
    Slots above [fh_cache_max] have never been handed out, and while slots
    are still being handed out the next one, [fh_cache_max] itself, has the
    zero key.  No two slots hold the same key, the zero key apart (invalidated
    and unused slots all have it). *)
Definition cache_inv (s : state) : Prop :=
  state_ok s
  ∧ (∀ j, (0 ≤ c_use (slot s j) ≤ fh_cache_time s)%Z)
  ∧ (∀ j, c_use (slot s j) = 0%Z →
          c_dev (slot s j) = 0%Z ∧ c_ino (slot s j) = 0%Z)
  ∧ (∀ j, fh_cache_max s < j → slot s j = empty_slot)
  ∧ (fh_cache_max s < CACHE_ENTRIES - 1 →
     c_dev (slot s (fh_cache_max s)) = 0%Z
     ∧ c_ino (slot s (fh_cache_max s)) = 0%Z)
  ∧ (∀ j k, c_dev (slot s j) = c_dev (slot s k) →
            c_ino (slot s j) = c_ino (slot s k) →
            (c_dev (slot s j) ≠ 0 ∨ c_ino (slot s j) ≠ 0)%Z → j = k).


(** * Properties *)

(** ** The inode hash *)

Lemma FH_HASH_mod n :
  FH_HASH n = ((n + 3 * (n / 2 ^ 8) + 5 * (n / 2 ^ 16)) mod 256)%Z.
Proof.
  unfold FH_HASH.
  change 255%Z with (Z.ones 8).
  rewrite Z.land_ones by lia.
  by rewrite !Z.shiftr_div_pow2 by lia.
Qed.

Lemma FH_HASH_range n : (0 ≤ FH_HASH n < 256)%Z.
Proof. rewrite FH_HASH_mod. apply Z.mod_pos_bound. lia. Qed.

(** The sum is formed in the unsigned type of [n]; wrapping it to any width
    of at least 8 bits before masking gives the same hash. *)
Lemma FH_HASH_wrap n w :
  (8 ≤ w)%Z →
  Z.land ((n + 3 * Z.shiftr n 8 + 5 * Z.shiftr n 16) mod 2 ^ w) 255
  = FH_HASH n.
Proof.
  intros Hw. unfold FH_HASH.
  change 255%Z with (Z.ones 8).
  rewrite !Z.land_ones by lia.
  apply Z.mod_mod_divide.
  exists (2 ^ (w - 8))%Z.
  rewrite <- Z.pow_add_r by lia. f_equal. lia.
Qed.

(** ** C strings in a buffer *)

Lemma c_str_clean l : NUL ∉ l → c_str l = l.
Proof.
  induction l as [|x l IH]; simpl; [done|].
  rewrite not_elem_of_cons. intros [Hx Hl].
  rewrite decide_False by done. by rewrite IH.
Qed.

Lemma c_str_app_NUL l tl : NUL ∉ l → c_str (l ++ NUL :: tl) = l.
Proof.
  induction l as [|x l IH]; simpl.
  - done.
  - rewrite not_elem_of_cons. intros [Hx Hl].
    rewrite decide_False by done. by rewrite IH.
Qed.

Lemma strchr_None l c : c ∉ l → strchr l c = None.
Proof.
  induction l as [|x l IH]; simpl; [done|].
  rewrite not_elem_of_cons. intros [Hx Hl].
  rewrite decide_False by done.
  case_decide; [done|]. by rewrite IH.
Qed.

Lemma strchr_app l c tl :
  c ∉ l → NUL ∉ l → strchr (l ++ c :: tl) c = Some (length l).
Proof.
  induction l as [|x l IH]; simpl.
  - intros _ _. by rewrite decide_True.
  - rewrite !not_elem_of_cons. intros [Hx Hl] [Hn Hnl].
    rewrite decide_False by done. rewrite decide_False by done.
    by rewrite IH.
Qed.

Lemma poke_mid {A} (pre : list A) x y tl :
  <[length pre := y]> (pre ++ x :: tl) = pre ++ y :: tl.
Proof.
  rewrite insert_app_r_alt by lia. by rewrite Nat.sub_diag.
Qed.

Lemma drop_mid {A} (pre : list A) x tl :
  drop (length pre + 1) (pre ++ x :: tl) = tl.
Proof.
  rewrite drop_app_ge by lia.
  by replace (length pre + 1 - length pre) with 1 by lia.
Qed.

Lemma path_of_app k1 k2 : path_of (k1 ++ k2) = path_of k1 ++ path_of k2.
Proof.
  induction k1 as [|n k1 IH]; simpl; [done|].
  by rewrite IH, <- app_assoc.
Qed.

Lemma path_of_clean k : Forall component k → NUL ∉ path_of k.
Proof.
  induction 1 as [|n k [_ Hn] _ IH]; simpl; [apply not_elem_of_nil|].
  rewrite not_elem_of_cons, not_elem_of_app. done.
Qed.

(** ** fh_valid *)

Lemma fh_valid_false (h : unfs3_fh_t) :
  fh_valid h = false ↔ dev h = 0%Z ∨ ino h = 0%Z.
Proof.
  unfold fh_valid. rewrite andb_false_iff, !bool_decide_eq_false.
  destruct (decide (dev h = 0%Z)), (decide (ino h = 0%Z)); tauto.
Qed.

(** C7, as amended.  [fh_valid] is false exactly when the device number
    or the inode number of the handle is zero, and true exactly when
    neither is: the test is [dev != 0 && ino != 0], the invariant of valid
    handles, and one zero field is enough to fail it. *)
Theorem fh_valid_false_iff_a_zero_field (h : unfs3_fh_t) :
  (fh_valid h = false ↔ dev h = 0%Z ∨ ino h = 0%Z)
  ∧ (fh_valid h = true ↔ dev h ≠ 0%Z ∧ ino h ≠ 0%Z).
Proof.
  split; [apply fh_valid_false|].
  unfold fh_valid. by rewrite andb_true_iff, !bool_decide_eq_true.
Qed.

(** C7 fails as stated: a handle with a zero device and a non-zero inode
    number does not have both fields zero, and [fh_valid] is false for
    it. *)
Theorem fh_valid_zero_dev_only :
  fh_valid (mkfh 0 5 0 0 []) = false
  ∧ ¬ (dev (mkfh 0 5 0 0 []) = 0%Z ∧ ino (mkfh 0 5 0 0 []) = 0%Z).
Proof. split; [reflexivity | intros [_ ?]; discriminate]. Qed.

(** ** nfh_valid *)

Lemma byte_at_range b i : (0 ≤ byte_at b i < 256)%Z.
Proof.
  unfold byte_at. pose proof (Byte.to_N_bounded (nth i b x00)). lia.
Qed.

Lemma fh_len_view b : fh_len (fh_view b) = (13 + byte_at b 12)%Z.
Proof.
  unfold fh_len, fh_view, uint32, sizeof_len, sizeof_dev, sizeof_ino,
    sizeof_gen; simpl.
  pose proof (byte_at_range b 12).
  rewrite Z2Nat.id by lia. rewrite Z.mod_small; lia.
Qed.

(** C4.  [nfh_valid] rejects a buffer exactly when it is shorter than the
    13-byte fixed header or its length differs from 13 plus the len byte at
    offset 12; nothing else, a zero [dev] included, makes it reject. *)
Theorem nfh_valid_rejects (b : nfs_fh3) :
  nfh_valid b = false ↔
  (Z.of_nat (length b) < 13)%Z
  ∨ Z.of_nat (length b) ≠ (13 + byte_at b 12)%Z.
Proof.
  unfold nfh_valid, FH_MINLEN. rewrite fh_len_view.
  repeat case_decide; split; intros; try tauto; try discriminate.
Qed.

Lemma nfh_valid_length b :
  nfh_valid b = true → length b = 13 + len (fh_view b).
Proof.
  unfold nfh_valid, FH_MINLEN. rewrite fh_len_view.
  repeat case_decide; try done. intros _.
  simpl. pose proof (byte_at_range b 12). lia.
Qed.

Lemma nfh_valid_inos b :
  nfh_valid b = true → length (inos (fh_view b)) = len (fh_view b).
Proof.
  intros Hv. apply nfh_valid_length in Hv. simpl in *.
  rewrite length_map, length_drop. lia.
Qed.

(** ** fh_extend *)

Lemma take_list_inserts_0 {A} (k l : list A) :
  length k ≤ length l → take (length k) (list_inserts 0 k l) = k.
Proof.
  intros Hl.
  rewrite <- (take_drop (length k) l) at 1.
  rewrite list_inserts_0_r by (rewrite length_take; lia).
  by rewrite take_app_length.
Qed.

(** C3.  Extending a wire-valid parent [H] whose [len] is below [FH_MAXLEN]
    with [(d, i, g)] gives a handle with [len] one larger, the fields
    [d], [i], [g], the hash of [i] at position [len H] of the trail and the
    parent's trail before it, and [fh_extend_post] says that a handle
    follows; a parent whose [len] is [FH_MAXLEN] gets no extension. *)
Theorem fh_extend_inverse_and_overflow (new0 : unfs3_fh_t) (H : nfs_fh3)
    (d i g : Z) :
  (FH_MAXLEN ≤ 255 → length (inos new0) = FH_MAXLEN →
   nfh_valid H = true → len (fh_view H) < FH_MAXLEN →
   ∃ H', fh_extend new0 H d i g = Some H'
     ∧ fh_extend_post new0 H d i g = Some (fh_len H', H')
     ∧ handle_follows (fh_extend_post new0 H d i g) = true
     ∧ len H' = len (fh_view H) + 1
     ∧ dev H' = d ∧ ino H' = i ∧ gen H' = g
     ∧ inos H' !! len (fh_view H) = Some (FH_HASH i)
     ∧ take (len (fh_view H)) (inos H')
       = take (len (fh_view H)) (inos (fh_view H)))
  ∧ (len (fh_view H) = FH_MAXLEN →
     fh_extend new0 H d i g = None
     ∧ handle_follows (fh_extend_post new0 H d i g) = false).
Proof.
  split.
  - intros Hmax Hnew Hv Hlt.
    pose proof (nfh_valid_inos H Hv) as Hinos.
    unfold fh_extend_post, fh_extend.
    destruct (decide (len (fh_view H) = FH_MAXLEN)) as [E|_];
      [simpl in *; lia|].
    eexists; split; [reflexivity|].
    split; [reflexivity|]. split; [reflexivity|].
    cbn [len dev ino gen inos set_len set_inos set_gen set_ino set_dev].
    rewrite take_ge by lia.
    repeat split.
    + unfold uchar. apply Nat.mod_small. lia.
    + apply list_lookup_insert_eq. rewrite length_inserts. lia.
    + rewrite take_insert_ge by lia.
      rewrite <- Hinos. apply take_list_inserts_0. lia.
  - intros Heq. unfold fh_extend_post, fh_extend.
    by rewrite decide_True.
Qed.

(** ** fh_comp_raw *)

Lemma fh_comp_walk_S fuel work last pos fh :
  fh_comp_walk (S fuel) work last pos fh =
  let work1 := <[last := slash]> work in
  let last' :=
    (λ k, last + 1 + k) <$> strchr (drop (last + 1) work1) slash in
  let work2 :=
    match last' with
    | Some l => <[l := NUL]> work1
    | None => work1
    end in
  match lstat fs (c_str work2) with
  | None => invalid_fh
  | Some buf =>
      match last' with
      | Some l =>
          if decide (S pos < FH_MAXLEN)
          then fh_comp_walk fuel work2 l (S pos)
                 (set_inos fh pos (FH_HASH (st_ino buf)))
          else invalid_fh
      | None =>
          set_len (set_inos fh pos (FH_HASH (st_ino buf))) (uchar (S pos))
      end
  end.
Proof. reflexivity. Qed.

(** The loop of [fh_comp_raw] on a path whose remaining components are
    [c :: rest], with the part [pre] already walked: it stats every prefix
    in turn and stores the hash of each inode, the last component's
    included. *)
Lemma fh_comp_walk_trail rest : ∀ c pre x pos fh fuel (sts : list stat),
  component c → Forall component rest → NUL ∉ pre →
  length sts = S (length rest) →
  pos + length sts ≤ FH_MAXLEN →
  length sts ≤ fuel →
  (∀ j st, sts !! j = Some st →
     lstat fs (pre ++ path_of (take (S j) (c :: rest))) = Some st) →
  fh_comp_walk fuel (pre ++ x :: c ++ path_of rest) (length pre) pos fh
  = mkfh (dev fh) (ino fh) (gen fh) (uchar (pos + length sts))
         (list_inserts pos ((λ st, FH_HASH (st_ino st)) <$> sts) (inos fh)).
Proof.
  induction rest as [|c' rest IH];
    intros c pre x pos fh fuel sts [Hcs Hcn] Hrest Hpre Hlen Hpos Hfuel Hst.
  - destruct sts as [|st0 [|? ?]]; simpl in Hlen; try lia.
    destruct fuel as [|fuel]; [simpl in Hfuel; lia|].
    rewrite fh_comp_walk_S. cbv zeta. simpl path_of.
    rewrite app_nil_r, poke_mid, drop_mid.
    rewrite strchr_None by done. cbn [fmap option_fmap option_map].
    rewrite c_str_clean
      by (rewrite not_elem_of_app, not_elem_of_cons; done).
    specialize (Hst 0 st0 eq_refl). simpl in Hst. rewrite app_nil_r in Hst.
    rewrite Hst. unfold set_len, set_inos. simpl.
    by replace (pos + 1) with (S pos) by lia.
  - destruct sts as [|st0 sts]; simpl in Hlen; [lia|].
    destruct fuel as [|fuel]; [simpl in Hfuel; lia|].
    apply Forall_cons in Hrest as [Hc' Hrest].
    rewrite fh_comp_walk_S. cbv zeta. simpl path_of.
    rewrite poke_mid, drop_mid.
    rewrite strchr_app by done. cbn [fmap option_fmap option_map].
    replace (pre ++ slash :: c ++ slash :: c' ++ path_of rest)
      with ((pre ++ slash :: c) ++ slash :: c' ++ path_of rest)
      by (by rewrite <- app_assoc).
    replace (length pre + 1 + length c) with (length (pre ++ slash :: c))
      by (rewrite length_app; simpl; lia).
    rewrite poke_mid.
    assert (NUL ∉ pre ++ slash :: c) as Hpre'
      by (rewrite not_elem_of_app, not_elem_of_cons; done).
    rewrite c_str_app_NUL by done.
    pose proof (Hst 0 st0 eq_refl) as Hst0. simpl in Hst0.
    rewrite app_nil_r in Hst0. rewrite Hst0.
    simpl in Hpos, Hfuel.
    rewrite decide_True by lia.
    rewrite (IH c' (pre ++ slash :: c) NUL (S pos) _ fuel sts);
      try done; try lia.
    + unfold set_inos. simpl. f_equal; [f_equal; lia|].
      symmetry. apply list_insert_inserts_lt. lia.
    + intros j st Hj. specialize (Hst (S j) st Hj).
      simpl in *. by rewrite <- app_assoc.
Qed.

(** The handle [fh_comp_raw] composes for a path ["/c1/.../cn"] other than
    the root, all of whose prefixes can be stat'ed: the object's device,
    inode and generation, one trail byte per component. *)
Lemma fh_comp_raw_value (cs : list cstring) (sts : list stat) (obj_st : stat) :
  path_of cs ≠ lit "/" → Forall component cs →
  length cs ≤ FH_MAXLEN → FH_MAXLEN ≤ 255 →
  length sts = length cs →
  (∀ j st, sts !! j = Some st →
     lstat fs (path_of (take (S j) cs)) = Some st) →
  last sts = Some obj_st →
  fh_comp_raw (path_of cs) false
  = mkfh (uint32 (st_dev obj_st)) (uint32 (st_ino obj_st))
         (get_gen obj_st FD_NONE (path_of cs)) (length cs)
         (list_inserts 0 ((λ st, FH_HASH (st_ino st)) <$> sts)
            (inos stack_fh)).
Proof.
  intros Hroot Hcs Hdepth Hmax Hlen Hst Hlast.
  assert (lstat fs (path_of cs) = Some obj_st) as Hobj.
  { rewrite last_lookup in Hlast. apply Hst in Hlast.
    rewrite take_ge in Hlast; [done|].
    destruct sts; simpl in *; lia. }
  unfold fh_comp_raw. rewrite Hobj. cbn [andb].
  rewrite decide_False by done.
  destruct cs as [|c rest]; [by destruct sts|].
  apply Forall_cons in Hcs as [Hc Hrest].
  set (fh := set_gen _ _).
  assert (fh_comp_walk (S FH_MAXLEN) (path_of (c :: rest)) 0 0 fh
          = mkfh (dev fh) (ino fh) (gen fh) (uchar (0 + length sts))
              (list_inserts 0 ((λ st, FH_HASH (st_ino st)) <$> sts)
                 (inos fh))) as ->.
  { apply (fh_comp_walk_trail rest c [] slash 0 fh (S FH_MAXLEN) sts);
      simpl in *; try done; try lia.
    apply not_elem_of_nil. }
  simpl in *. f_equal.
  unfold uchar. rewrite Nat.mod_small; lia.
Qed.

(** C2, as amended.  For a path ["/c1/.../cn"] other than the root, all of
    whose prefixes ["/c1"], ["/c1/c2"], ..., the path itself, can be
    stat'ed, [fh_comp_raw(path, false)] returns the device, inode and
    generation of the object, a [len] equal to the number [n] of components,
    the object's own included, and as [inos[0..len-1]] the hashes of the
    inode numbers of the prefixes in root-to-object order: the trail ends
    with the hash of the object's own inode.  The path fits the buffer
    [work]: [strlen(path) < NFS_MAXPATHLEN]. *)
Theorem fh_comp_raw_trail (cs : list cstring) (sts : list stat) :
  cs ≠ [] → path_of cs ≠ lit "/" → Forall component cs →
  length (path_of cs) < NFS_MAXPATHLEN →
  length cs ≤ FH_MAXLEN → FH_MAXLEN ≤ 255 →
  length (inos stack_fh) = FH_MAXLEN →
  length sts = length cs →
  (∀ j st, sts !! j = Some st →
     lstat fs (path_of (take (S j) cs)) = Some st) →
  ∃ obj_st, last sts = Some obj_st ∧
    dev (fh_comp_raw (path_of cs) false) = uint32 (st_dev obj_st)
    ∧ ino (fh_comp_raw (path_of cs) false) = uint32 (st_ino obj_st)
    ∧ gen (fh_comp_raw (path_of cs) false)
      = get_gen obj_st FD_NONE (path_of cs)
    ∧ len (fh_comp_raw (path_of cs) false) = length cs
    ∧ take (length cs) (inos (fh_comp_raw (path_of cs) false))
      = (λ st, FH_HASH (st_ino st)) <$> sts.
Proof.
  intros Hne Hroot Hcs _ Hdepth Hmax Hstack Hlen Hst.
  destruct (last sts) as [obj_st|] eqn:Hlast;
    [|apply last_None in Hlast; subst sts; destruct cs; simpl in *; done].
  exists obj_st. split; [done|].
  rewrite (fh_comp_raw_value cs sts obj_st) by done. simpl.
  repeat split.
  pose proof (take_list_inserts_0
                ((λ st, FH_HASH (st_ino st)) <$> sts) (inos stack_fh))
    as Htake.
  rewrite length_fmap, Hlen in Htake. apply Htake. lia.
Qed.

(** A path of more than [FH_MAXLEN] components has no handle. *)
Lemma fh_comp_walk_too_deep rest : ∀ c pre x pos fh fuel,
  component c → Forall component rest → NUL ∉ pre →
  pos < FH_MAXLEN → FH_MAXLEN < pos + S (length rest) →
  fh_comp_walk fuel (pre ++ x :: c ++ path_of rest) (length pre) pos fh
  = invalid_fh.
Proof.
  induction rest as [|c' rest IH];
    intros c pre x pos fh fuel [Hcs Hcn] Hrest Hpre Hpos Hdeep;
    [simpl in Hdeep; lia|].
  destruct fuel as [|fuel]; [done|].
  apply Forall_cons in Hrest as [Hc' Hrest].
  rewrite fh_comp_walk_S. cbv zeta. simpl path_of.
  rewrite poke_mid, drop_mid.
  rewrite strchr_app by done. cbn [fmap option_fmap option_map].
  destruct (lstat fs _); [|done].
  case_decide as Hnext; [|done].
  replace (pre ++ slash :: c ++ slash :: c' ++ path_of rest)
    with ((pre ++ slash :: c) ++ slash :: c' ++ path_of rest)
    by (by rewrite <- app_assoc).
  replace (length pre + 1 + length c) with (length (pre ++ slash :: c))
    by (rewrite length_app; simpl; lia).
  rewrite poke_mid.
  apply IH; try done; [|simpl in *; lia].
  rewrite not_elem_of_app, not_elem_of_cons. done.
Qed.

Lemma fh_comp_raw_too_deep (cs : list cstring) :
  Forall component cs → FH_MAXLEN < length cs → 0 < FH_MAXLEN →
  fh_comp_raw (path_of cs) false = invalid_fh.
Proof.
  intros Hcs Hdeep Hpos. unfold fh_comp_raw.
  destruct (lstat fs (path_of cs)); [|done]. cbn [andb].
  destruct cs as [|c rest]; [simpl in Hdeep; lia|].
  apply Forall_cons in Hcs as [Hc Hrest].
  rewrite decide_False.
  - apply (fh_comp_walk_too_deep rest c [] slash 0); try done;
      first [apply not_elem_of_nil | simpl in *; lia].
  - destruct rest as [|c' rest]; [simpl in Hdeep; lia|].
    simpl. intros Heq. apply (f_equal length) in Heq.
    simpl in Heq. rewrite length_app in Heq. simpl in Heq. lia.
Qed.

(** The recursion bounds are never reached. *)
Lemma fh_comp_walk_fuel fuel1 : ∀ fuel2 work last pos fh,
  0 < fuel1 → 0 < fuel2 →
  FH_MAXLEN - pos ≤ fuel1 → FH_MAXLEN - pos ≤ fuel2 →
  fh_comp_walk fuel1 work last pos fh = fh_comp_walk fuel2 work last pos fh.
Proof.
  induction fuel1 as [|fuel1 IH]; intros fuel2 work last pos fh H1 H2 Hf1 Hf2;
    [lia|].
  destruct fuel2 as [|fuel2]; [lia|].
  rewrite !fh_comp_walk_S. cbv zeta.
  destruct (lstat fs _); [|done].
  destruct (_ <$> strchr _ _); [|done].
  case_decide; [|done].
  apply IH; lia.
Qed.

Lemma fh_rec_scan_ext fh pos lead descend1 descend2 buf entries :
  (∀ obj, descend1 obj = descend2 obj) →
  fh_rec_scan fh pos lead descend1 buf entries
  = fh_rec_scan fh pos lead descend2 buf entries.
Proof.
  intros Hext. revert buf.
  induction entries as [|d_name entries IH]; intros buf; simpl; [done|].
  repeat case_decide; try done.
  rewrite Hext. by destruct (descend2 _).
Qed.

Lemma fh_rec_fuel fuel1 : ∀ fuel2 fh pos lead,
  pos ≤ len fh → len fh - pos < fuel1 → len fh - pos < fuel2 →
  fh_rec fuel1 fh pos lead = fh_rec fuel2 fh pos lead.
Proof.
  induction fuel1 as [|fuel1 IH]; intros fuel2 fh pos lead Hp H1 H2; [lia|].
  destruct fuel2 as [|fuel2]; [lia|]. simpl.
  case_decide; [done|].
  destruct (readdir fs lead); [|done].
  apply fh_rec_scan_ext. intros obj. apply IH; lia.
Qed.

(** ** The root *)

(** On "/" [fh_comp_raw] returns before it has assigned [fh.len]: the
    field holds what the stack held. *)
Lemma fh_comp_raw_root buf :
  lstat fs (lit "/") = Some buf →
  len (fh_comp_raw (lit "/") false) = len stack_fh.
Proof.
  intros Hst. unfold fh_comp_raw. rewrite Hst. cbn [andb].
  by rewrite decide_True.
Qed.

(** A handle with [len] 0 resolves to "/" with no call to the host and no
    change of state. *)
Lemma fh_decomp_raw_root s fh :
  len fh = 0 → fh_decomp_raw s (Some fh) = (Some (lit "/"), s).
Proof. intros Hl. unfold fh_decomp_raw. by rewrite decide_True. Qed.

(** ** The resolver *)

Lemma fh_rec_scan_Some fh pos lead descend buf entries r b :
  fh_rec_scan fh pos lead descend buf entries = Some (r, b) →
  ∃ d_name, d_name ∈ entries ∧
    ((r = sprintf_s_slash_s (drop 1 lead) d_name
      ∧ probed fh (sprintf_s_slash_s lead d_name) b)
     ∨ descend (sprintf_s_slash_s lead d_name) = Some (r, b)).
Proof.
  revert buf. induction entries as [|d_name entries IH]; intros buf; simpl;
    [done|].
  assert (∀ buf', fh_rec_scan fh pos lead descend buf' entries = Some (r, b) →
    ∃ d, d ∈ d_name :: entries ∧
      ((r = sprintf_s_slash_s (drop 1 lead) d
        ∧ probed fh (sprintf_s_slash_s lead d) b)
       ∨ descend (sprintf_s_slash_s lead d) = Some (r, b))) as Hrest.
  { intros buf' Hs. destruct (IH _ Hs) as (d & Hd & Hc).
    exists d. split; [by right | done]. }
  case_decide; [|by apply Hrest].
  case_decide as Hm.
  - intros [= <- <-]. exists d_name. split; [by left|]. left. split; [done|].
    unfold probed. destruct Hm as [Hd Hi].
    destruct (lstat fs (sprintf_s_slash_s lead d_name)); simpl in *.
    + split; [by left | done].
    + split; [right | done]. split; [done|]. done.
  - case_decide; [|by apply Hrest].
    destruct (descend (sprintf_s_slash_s lead d_name)) as [r'|] eqn:Hdesc;
      [|by apply Hrest].
    intros [= ->]. exists d_name. split; [by left | by right].
Qed.

(** The path [fh_rec] reports is the object it probed less the first
    character of the lead the search started from. *)
Lemma fh_rec_Some fuel fh pos lead r b :
  lead ≠ [] →
  fh_rec fuel fh pos lead = Some (r, b) →
  ∃ rest, r = drop 1 lead ++ slash :: rest ∧ probed fh (take 1 lead ++ r) b.
Proof.
  revert pos lead. induction fuel as [|fuel IH]; intros pos lead Hne; simpl;
    [done|].
  case_decide; [done|].
  destruct (readdir fs lead) as [entries|]; [|done].
  intros Hs. apply fh_rec_scan_Some in Hs.
  destruct Hs as (d_name & _ & [[-> Hp] | Hdesc]).
  - exists d_name. split; [done|].
    unfold sprintf_s_slash_s in *. by rewrite app_assoc, take_drop.
  - apply IH in Hdesc; [|unfold sprintf_s_slash_s; by destruct lead].
    destruct Hdesc as (rest & -> & Hp).
    unfold sprintf_s_slash_s in *.
    destruct lead as [|c lead]; [done|]. simpl in *. rewrite drop_0 in *.
    exists (d_name ++ slash :: rest). split; [|done].
    by rewrite <- app_assoc.
Qed.

(** C10, as amended.  In whichever directory [fh_rec] finds the object,
    the root (lead "/", [k] empty) or one further down (lead "//a/b" for
    [k = [a; b]]), the path it returns starts with a slash: the character
    dropped is the slash that doubles the one "%s/%s" puts after the lead
    "/".  The result is "/name" in the root and "/a/b/name" below, not
    "a/b/name".  It is the path of the object the scan probed less its
    first character: "/" followed by the result is a path the scan
    [lstat]'ed, below the lead, with the outcome the handle asks for and
    the stat that is returned with the path. *)
Theorem fh_rec_result_leading_slash (fuel : nat) (fh : unfs3_fh_t)
    (pos : nat) (k : list cstring) (r : cstring) (buf : stat) :
  fh_rec fuel fh pos (slash :: path_of k) = Some (r, buf) →
  (∃ rest, r = path_of k ++ slash :: rest
           ∧ slash :: r = (slash :: path_of k) ++ slash :: rest)
  ∧ probed fh (slash :: r) buf
  ∧ head r = Some slash.
Proof.
  intros Hs. apply fh_rec_Some in Hs; [|done].
  destruct Hs as (rest & -> & Hp). simpl in *. rewrite drop_0 in *.
  split; [by exists rest|]. split; [done|]. by destruct k.
Qed.

Lemma fh_decomp_raw_Some s fh r s' :
  fh_decomp_raw s (Some fh) = (Some r, s') →
  (len fh = 0 ∧ r = lit "/" ∧ s' = s)
  ∨ (len fh ≠ 0 ∧ ∃ rest buf, r = slash :: rest ∧ probed fh (slash :: r) buf
       ∧ s' = set_st_cache s true buf).
Proof.
  unfold fh_decomp_raw. case_decide as Hl.
  - intros [= <- <-]. by left.
  - destruct (fh_rec _ _ _ _) as [[r' b]|] eqn:Hrec; [|done].
    intros [= <- <-]. right. split; [done|].
    apply fh_rec_Some in Hrec; [|done].
    destruct Hrec as (rest & -> & Hp). by exists rest, b.
Qed.

(** ** The scan of one directory *)

(** Entries that are not the object and lead to nothing are passed over. *)
Lemma fh_rec_scan_skip fh pos lead descend l1 l2 :
  (∀ e, e ∈ l1 →
     ∃ st, lstat fs (sprintf_s_slash_s lead e) = Some st
       ∧ ¬ (st_dev st = dev fh ∧ st_ino st = ino fh)
       ∧ (e ≠ lit ".." → e ≠ lit "." →
          descend (sprintf_s_slash_s lead e) = None)) →
  ∀ buf, ∃ buf',
    fh_rec_scan fh pos lead descend buf (l1 ++ l2)
    = fh_rec_scan fh pos lead descend buf' l2.
Proof.
  induction l1 as [|e l1 IH]; intros Hmiss buf; [by exists buf|].
  assert (∀ e', e' ∈ l1 →
     ∃ st, lstat fs (sprintf_s_slash_s lead e') = Some st
       ∧ ¬ (st_dev st = dev fh ∧ st_ino st = ino fh)
       ∧ (e' ≠ lit ".." → e' ≠ lit "." →
          descend (sprintf_s_slash_s lead e') = None)) as Hmiss'.
  { intros e' He'. apply Hmiss. by right. }
  destruct (Hmiss e) as (st & Hst & Hno & Hdesc); [by left|].
  simpl. case_decide; [|by apply IH].
  rewrite Hst. rewrite decide_False by done.
  case_decide as Hd; [|by apply IH].
  destruct Hd as (Hdd & Hd & _). rewrite Hdesc by done. by apply IH.
Qed.

Lemma fh_rec_scan_miss fh pos lead descend entries buf :
  (∀ e, e ∈ entries →
     ∃ st, lstat fs (sprintf_s_slash_s lead e) = Some st
       ∧ ¬ (st_dev st = dev fh ∧ st_ino st = ino fh)
       ∧ (e ≠ lit ".." → e ≠ lit "." →
          descend (sprintf_s_slash_s lead e) = None)) →
  fh_rec_scan fh pos lead descend buf entries = None.
Proof.
  intros Hmiss.
  destruct (fh_rec_scan_skip fh pos lead descend entries [] Hmiss buf)
    as (buf' & Heq).
  by rewrite app_nil_r in Heq.
Qed.

(** The first entry that is the object ends the scan. *)
Lemma fh_rec_scan_found fh pos lead descend buf e l2 st :
  length lead + length e + 1 < NFS_MAXPATHLEN →
  lstat fs (sprintf_s_slash_s lead e) = Some st →
  st_dev st = dev fh → st_ino st = ino fh →
  fh_rec_scan fh pos lead descend buf (e :: l2)
  = Some (sprintf_s_slash_s (drop 1 lead) e, st).
Proof.
  intros Hlen Hst Hd Hi. simpl.
  rewrite decide_True by done. rewrite Hst. by rewrite decide_True.
Qed.

(** An entry with the expected hash is descended into, and what the
    descent finds is the result. *)
Lemma fh_rec_scan_descend fh pos lead descend buf e l2 st r :
  length lead + length e + 1 < NFS_MAXPATHLEN →
  lstat fs (sprintf_s_slash_s lead e) = Some st →
  ¬ (st_dev st = dev fh ∧ st_ino st = ino fh) →
  e ≠ lit ".." → e ≠ lit "." →
  inos fh !! pos = Some (FH_HASH (st_ino st)) →
  descend (sprintf_s_slash_s lead e) = Some r →
  fh_rec_scan fh pos lead descend buf (e :: l2) = Some r.
Proof.
  intros Hlen Hst Hno Hdd Hd Hh Hdesc. simpl.
  rewrite decide_True by done. rewrite Hst.
  rewrite decide_False by done. rewrite decide_True by done.
  by rewrite Hdesc.
Qed.

Lemma fh_rec_S fuel fh pos lead :
  fh_rec (S fuel) fh pos lead =
  if decide (pos = len fh) then None
  else
    match readdir fs lead with
    | None => None
    | Some entries =>
        fh_rec_scan fh pos lead (fh_rec fuel fh (S pos)) stack_buf entries
    end.
Proof. reflexivity. Qed.

(** ** The path cache *)

Lemma slot_set_slot_eq s idx e :
  idx < length (fh_cache s) → slot (set_slot s idx e) idx = e.
Proof.
  intros Hi. unfold slot, set_slot. simpl.
  by rewrite list_lookup_insert_eq.
Qed.

Lemma slot_set_slot_ne s idx j e :
  idx ≠ j → slot (set_slot s idx e) j = slot s j.
Proof.
  intros Hne. unfold slot, set_slot. simpl.
  by rewrite list_lookup_insert_ne.
Qed.

Lemma set_slot_set_slot s idx e1 e2 :
  set_slot (set_slot s idx e1) idx e2 = set_slot s idx e2.
Proof. unfold set_slot. simpl. by rewrite list_insert_insert_eq. Qed.

Lemma set_slot_ge s idx e :
  length (fh_cache s) ≤ idx → set_slot s idx e = s.
Proof.
  intros Hi. unfold set_slot. rewrite list_insert_ge by done. by destruct s.
Qed.

Lemma length_set_slot s idx e :
  length (fh_cache (set_slot s idx e)) = length (fh_cache s).
Proof. unfold set_slot. simpl. apply length_insert. Qed.

Lemma fh_cache_inval_eq s idx : fh_cache_inval s idx = set_slot s idx empty_slot.
Proof.
  unfold fh_cache_inval.
  destruct (decide (idx < length (fh_cache s))) as [Hi|Hi].
  - rewrite !set_slot_set_slot.
    rewrite !slot_set_slot_eq by (rewrite ?length_set_slot; done).
    simpl. done.
  - by rewrite !(set_slot_ge s) by lia.
Qed.

Lemma fh_cache_index_scan_Some s n i0 d i idx :
  fh_cache_index_scan s n i0 d i = Some idx →
  i0 ≤ idx < i0 + n ∧ c_dev (slot s idx) = d ∧ c_ino (slot s idx) = i.
Proof.
  revert i0. induction n as [|n IH]; intros i0; simpl; [done|].
  case_decide as Hm.
  - intros [= <-]. split; [lia | done].
  - intros Hs. apply IH in Hs. split; [lia | tauto].
Qed.

Lemma fh_cache_index_Some s d i idx :
  fh_cache_index s d i = Some idx →
  idx ≤ fh_cache_max s ∧ c_dev (slot s idx) = d ∧ c_ino (slot s idx) = i.
Proof.
  intros Hs. apply fh_cache_index_scan_Some in Hs. split; [lia | tauto].
Qed.

(** While every slot it visits is occupied, the scan of [fh_cache_lru]
    never finds a stamp below its initial [best = -1] and keeps [best_idx]. *)
Lemma fh_cache_lru_scan_occupied s n i0 best_idx :
  (∀ j, i0 ≤ j < i0 + n → occupied (slot s j)) →
  fh_cache_lru_scan s n i0 (-1) best_idx = best_idx.
Proof.
  revert i0. induction n as [|n IH]; intros i0 Hocc; simpl; [done|].
  pose proof (Hocc i0 ltac:(lia)) as H0. unfold occupied in H0.
  rewrite decide_False by lia. rewrite decide_False by lia.
  apply IH. intros j Hj. apply Hocc. lia.
Qed.

(** With the cache full, [fh_cache_lru] hands out slot 0 whatever the
    stamps are. *)
Lemma fh_cache_lru_full s :
  CACHE_ENTRIES - 1 ≤ fh_cache_max s →
  (∀ j, j < CACHE_ENTRIES → occupied (slot s j)) →
  fh_cache_lru s = (0, s).
Proof.
  intros Hmax Hocc. unfold fh_cache_lru.
  rewrite decide_False by lia.
  rewrite fh_cache_lru_scan_occupied; [done|].
  intros j Hj. apply Hocc. lia.
Qed.

Lemma fh_cache_lru_scan_bound s n i0 best best_idx :
  best_idx < i0 + n → 0 < n →
  fh_cache_lru_scan s n i0 best best_idx < i0 + n.
Proof.
  revert i0 best best_idx.
  induction n as [|n IH]; intros i0 best best_idx Hb Hn; simpl; [lia|].
  repeat case_decide; [lia| |].
  - destruct n; [simpl; lia|].
    pose proof (IH (S i0) (c_use (slot s i0)) i0 ltac:(lia) ltac:(lia)). lia.
  - destruct n; [simpl; lia|].
    pose proof (IH (S i0) best best_idx ltac:(lia) ltac:(lia)). lia.
Qed.

Lemma fh_cache_lru_ok s :
  state_ok s →
  (fh_cache_lru s).1 < CACHE_ENTRIES ∧ state_ok (fh_cache_lru s).2
  ∧ st_cache_valid (fh_cache_lru s).2 = st_cache_valid s
  ∧ st_cache (fh_cache_lru s).2 = st_cache s
  ∧ fh_cache_time (fh_cache_lru s).2 = fh_cache_time s.
Proof.
  intros [Hlen Hmax]. unfold fh_cache_lru, state_ok.
  case_decide; simpl.
  - repeat split; try done; lia.
  - repeat split; try done.
    apply (fh_cache_lru_scan_bound s CACHE_ENTRIES 0); lia.
Qed.

(** What [fh_cache_add] leaves behind: the slot it chose holds the new
    entry under the next stamp. *)
Lemma fh_cache_add_eq s d i path :
  fh_cache_add s d i path =
  let '(idx, s1) :=
    match fh_cache_index s d i with
    | Some idx => (idx, s)
    | None => fh_cache_lru s
    end in
  set_slot (set_fh_cache_time s1 (fh_cache_time s1 + 1)) idx
    (if decide (idx < length (fh_cache s1))
     then mkslot d i path (fh_cache_time s1 + 1)
     else empty_slot).
Proof.
  unfold fh_cache_add.
  destruct (match fh_cache_index s d i with
            | Some idx => (idx, s)
            | None => fh_cache_lru s
            end) as [idx s1].
  rewrite fh_cache_inval_eq. unfold fh_cache_next.
  unfold set_slot, slot, set_fh_cache_time, set_fh_cache, empty_slot.
  destruct s1 as [v b c m u h t]. simpl in *.
  case_decide as Hi.
  - repeat (rewrite list_lookup_insert_eq
              by (rewrite ?length_insert; done); simpl).
    by rewrite !list_insert_insert_eq.
  - by rewrite !list_insert_ge by (rewrite ?length_insert; lia).
Qed.

Lemma fh_cache_add_st_cache s d i path :
  st_cache_valid (fh_cache_add s d i path) = st_cache_valid s
  ∧ st_cache (fh_cache_add s d i path) = st_cache s.
Proof.
  rewrite fh_cache_add_eq.
  destruct (fh_cache_index s d i); simpl; [done|].
  unfold fh_cache_lru. case_decide; done.
Qed.

(** C8, as amended.  [fh_comp] does not touch the attribute cache: whether
    the handle it returns is valid or not, [st_cache_valid] and [st_cache]
    are what they were before the call. *)
Theorem fh_comp_keeps_st_cache (s : state) (path : cstring) (need_dir : bool) :
  st_cache_valid (fh_comp s path need_dir).2 = st_cache_valid s
  ∧ st_cache (fh_comp s path need_dir).2 = st_cache s.
Proof.
  unfold fh_comp. destruct (fh_valid _); simpl; [|done].
  apply fh_cache_add_st_cache.
Qed.

(** ** The shape of the state is kept *)

Lemma state0_ok : 0 < CACHE_ENTRIES → state_ok (state0 CACHE_ENTRIES).
Proof. intros Hn. split; simpl; [apply length_replicate | done]. Qed.

Lemma fh_cache_index_lt s d i idx :
  state_ok s → fh_cache_index s d i = Some idx → idx < length (fh_cache s).
Proof.
  intros [Hlen Hmax] Hidx. apply fh_cache_index_Some in Hidx. lia.
Qed.

Lemma fh_cache_add_ok s d i path :
  state_ok s → state_ok (fh_cache_add s d i path).
Proof.
  intros Hok. rewrite fh_cache_add_eq.
  destruct (fh_cache_index s d i) as [idx|].
  - destruct Hok as [Hlen Hmax]. split; simpl; [|done].
    by rewrite length_insert.
  - destruct (fh_cache_lru_ok s Hok) as (_ & [Hlen Hmax] & _).
    destruct (fh_cache_lru s) as [idx s1]. simpl in *.
    split; simpl; [|done]. by rewrite length_insert.
Qed.

Lemma fh_cache_lookup_ok s d i :
  state_ok s → state_ok (fh_cache_lookup s d i).2.
Proof.
  intros [Hlen Hmax]. unfold fh_cache_lookup.
  destruct (fh_cache_index s d i) as [idx|]; [|done].
  assert (state_ok (fh_cache_inval s idx)) as Hinval.
  { rewrite fh_cache_inval_eq. split; simpl; [|done].
    by rewrite length_insert. }
  destruct (lstat fs _) as [buf|]; [|done].
  case_decide; [|done].
  split; simpl; [|done]. by rewrite length_insert.
Qed.

Lemma fh_comp_ok s path need_dir :
  state_ok s → state_ok (fh_comp s path need_dir).2.
Proof.
  intros Hok. unfold fh_comp.
  destruct (fh_valid _); simpl; [by apply fh_cache_add_ok | done].
Qed.

Lemma fh_decomp_ok s nfh : state_ok s → state_ok (fh_decomp s nfh).2.
Proof.
  intros Hok. unfold fh_decomp.
  destruct (nfh_valid nfh); cbn [negb]; [|done].
  pose proof (fh_cache_lookup_ok s (dev (fh_view nfh)) (ino (fh_view nfh)) Hok)
    as Hlk.
  destruct (fh_cache_lookup s _ _) as [[p|] s1]; cbn [snd] in *; [done|].
  assert (state_ok (set_fh_cache_use s1 (fh_cache_use s1 + 1))) as Hs1
    by done.
  revert Hs1. generalize (set_fh_cache_use s1 (fh_cache_use s1 + 1)).
  intros s2 Hs2. unfold fh_decomp_raw.
  case_decide; cbn [snd]; [by apply fh_cache_add_ok|].
  destruct (fh_rec _ _ _ _) as [[r b]|]; cbn [snd]; [|done].
  by apply fh_cache_add_ok.
Qed.

(** With every slot occupied and [(d, i)] not in the cache, [fh_cache_add]
    overwrites slot 0, whatever the stamps are, and no other slot. *)
Lemma fh_cache_add_full s d i path :
  state_ok s → fh_cache_max s = CACHE_ENTRIES - 1 →
  (∀ j, j < CACHE_ENTRIES → occupied (slot s j)) →
  fh_cache_index s d i = None →
  slot (fh_cache_add s d i path) 0 = mkslot d i path (fh_cache_time s + 1)
  ∧ ∀ j, j ≠ 0 → slot (fh_cache_add s d i path) j = slot s j.
Proof.
  intros [Hlen Hmax] Hfull Hocc Hidx.
  rewrite fh_cache_add_eq, Hidx, fh_cache_lru_full by (done || lia).
  rewrite decide_True by lia. split.
  - unfold slot. simpl. by rewrite list_lookup_insert_eq by lia.
  - intros j Hj. unfold slot. simpl. by rewrite list_lookup_insert_ne.
Qed.

(** ** fh_cache_lookup and fh_decomp *)

Lemma fh_cache_lookup_hit s d i p s' :
  state_ok s →
  fh_cache_lookup s d i = (Some p, s') →
  ∃ idx buf, fh_cache_index s d i = Some idx ∧ c_path (slot s idx) = p
    ∧ lstat fs p = Some buf ∧ st_dev buf = d ∧ st_ino buf = i
    ∧ st_cache_valid s' = true ∧ st_cache s' = buf
    ∧ c_use (slot s' idx) = (fh_cache_time s + 1)%Z.
Proof.
  intros [Hlen Hmax]. unfold fh_cache_lookup.
  destruct (fh_cache_index s d i) as [idx|] eqn:Hidx; [|done].
  apply fh_cache_index_Some in Hidx as Hin.
  assert (idx < length (fh_cache s)) as Hlt by lia.
  destruct (lstat fs (c_path (slot s idx))) as [buf|] eqn:Hst; [|done].
  case_decide as Hm; [|done].
  unfold fh_cache_next.
  assert (∀ t e, slot (set_st_cache
                         (set_slot (set_fh_cache_time s t) idx e)
                         true buf) idx = e) as Hslot.
  { intros t e. unfold slot, set_st_cache, set_slot, set_fh_cache_time.
    simpl. by rewrite list_lookup_insert_eq. }
  rewrite Hslot. simpl.
  intros [= <- <-]. exists idx, buf. rewrite Hslot. simpl.
  unfold slot at 1. simpl. fold (slot s idx).
  destruct Hm. done.
Qed.

Lemma fh_cache_lookup_stale s d i idx :
  state_ok s →
  fh_cache_index s d i = Some idx →
  (∀ buf, lstat fs (c_path (slot s idx)) = Some buf →
          ¬ (st_dev buf = d ∧ st_ino buf = i)) →
  fh_cache_lookup s d i = (None, fh_cache_inval s idx)
  ∧ slot (fh_cache_inval s idx) idx = empty_slot.
Proof.
  intros [Hlen Hmax] Hidx Hstale. unfold fh_cache_lookup. rewrite Hidx.
  apply fh_cache_index_Some in Hidx as Hin.
  split.
  - destruct (lstat fs (c_path (slot s idx))) as [buf|] eqn:Hst; [|done].
    rewrite decide_False; [done|]. by apply Hstale.
  - rewrite fh_cache_inval_eq. apply slot_set_slot_eq. lia.
Qed.

(** A path [fh_decomp] returns was validated during the call, by the cache
    lookup or by the scan, unless it is the "/" of a handle with [len] 0. *)
Lemma fh_decomp_Some s nfh r :
  state_ok s →
  (fh_decomp s nfh).1 = Some r →
  (len (fh_view nfh) = 0 ∧ r = lit "/")
  ∨ (∃ buf, lstat fs r = Some buf ∧ st_dev buf = dev (fh_view nfh)
            ∧ st_ino buf = ino (fh_view nfh))
  ∨ (r ≠ [] ∧ ∃ buf, probed (fh_view nfh) (slash :: r) buf).
Proof.
  intros Hok. unfold fh_decomp.
  destruct (nfh_valid nfh); cbn [negb fst]; [|done].
  destruct (fh_cache_lookup s _ _) as [[p|] s1] eqn:Hlk.
  - cbn [fst]. intros [= ->]. right. left.
    apply fh_cache_lookup_hit in Hlk; [|done].
    destruct Hlk as (idx & buf & _ & _ & ? & ? & ? & _). by exists buf.
  - match goal with
    | |- context [fh_decomp_raw ?a ?b] =>
        destruct (fh_decomp_raw a b) as [[p|] s2] eqn:Hraw
    end; cbn [fst]; [|done].
    intros [= ->].
    apply fh_decomp_raw_Some in Hraw.
    destruct Hraw as [(? & ? & _) | (_ & rest & buf & -> & Hp & _)].
    + by left.
    + right. right. split; [done|]. by exists buf.
Qed.

(** C9.  A path [fh_cache_lookup] returns is the path of the slot found
    for [(d, i)], an [lstat] of it succeeded during the call and reported
    exactly [(d, i)], that stat is in the attribute cache and the slot
    carries the next stamp; and the lookup does return the path of the
    slot whenever the [lstat] of it reports [(d, i)].  ([fh_cache_time]
    is a C [int]: the two statements about a hit are for a counter that
    has not reached [INT_MAX].)  When the [lstat] of the slot's path
    fails or reports another device or inode, the lookup clears the slot
    and returns a miss, and [fh_decomp] of a handle for [(d, i)] does not
    return that stale path: on a host that reads a doubled leading slash
    as one, for an object whose device and inode are not both zero and a
    cached path other than the root, which cannot be renamed. *)
Theorem fh_cache_lookup_validated (s : state) (d i : Z) :
  state_ok s →
  ((fh_cache_time s < 2 ^ 31 - 1)%Z →
   (∀ p s', fh_cache_lookup s d i = (Some p, s') →
      ∃ idx buf, fh_cache_index s d i = Some idx ∧ c_path (slot s idx) = p
        ∧ lstat fs p = Some buf ∧ st_dev buf = d ∧ st_ino buf = i
        ∧ st_cache_valid s' = true ∧ st_cache s' = buf
        ∧ c_use (slot s' idx) = (fh_cache_time s + 1)%Z)
   ∧ (∀ idx buf, fh_cache_index s d i = Some idx →
        lstat fs (c_path (slot s idx)) = Some buf →
        st_dev buf = d → st_ino buf = i →
        ∃ s', fh_cache_lookup s d i = (Some (c_path (slot s idx)), s')
          ∧ st_cache_valid s' = true ∧ st_cache s' = buf
          ∧ c_use (slot s' idx) = (fh_cache_time s + 1)%Z))
  ∧ (∀ idx, fh_cache_index s d i = Some idx →
       (∀ buf, lstat fs (c_path (slot s idx)) = Some buf →
               ¬ (st_dev buf = d ∧ st_ino buf = i)) →
       (∃ s', fh_cache_lookup s d i = (None, s')
              ∧ slot s' idx = empty_slot)
       ∧ ∀ nfh, dev (fh_view nfh) = d → ino (fh_view nfh) = i →
           (∀ q, q ≠ [] → lstat fs (slash :: q) = lstat fs q) →
           (d ≠ 0 ∨ i ≠ 0)%Z →
           c_path (slot s idx) ≠ lit "/" →
           (fh_decomp s nfh).1 ≠ Some (c_path (slot s idx))).
Proof.
  intros Hok. split.
  - intros _. split.
    + intros p s' Hlk. by apply fh_cache_lookup_hit.
    + intros idx buf Hidx Hst Hd Hi.
      pose proof (fh_cache_index_lt s d i idx Hok Hidx) as Hlt.
      pose proof Hidx as Hin. apply fh_cache_index_Some in Hin.
      assert (idx < length (fh_cache s)) as Hlt' by (destruct Hok; lia).
      unfold fh_cache_lookup. rewrite Hidx, Hst.
      rewrite decide_True by done. unfold fh_cache_next.
      assert (∀ t e, slot (set_st_cache
                             (set_slot (set_fh_cache_time s t) idx e)
                             true buf) idx = e) as Hslot.
      { intros t e. unfold slot, set_st_cache, set_slot, set_fh_cache_time.
        simpl. by rewrite list_lookup_insert_eq. }
      rewrite Hslot. eexists. split; [reflexivity|]. rewrite Hslot. done.
  - intros idx Hidx Hstale. split.
    + exists (fh_cache_inval s idx). by apply fh_cache_lookup_stale.
    + intros nfh Hd Hi Hslash Hnz Hroot Hret.
      apply fh_decomp_Some in Hret; [|done].
      destruct Hret
        as [[_ Hr] | [(buf & Hst & Hbd & Hbi) | (Hne & buf & Hp)]].
      * done.
      * apply (Hstale buf Hst). split; congruence.
      * destruct Hp as ([Hst | (Hst & Hz1 & Hz2)] & Hbd & Hbi).
        -- rewrite Hslash in Hst by done.
           apply (Hstale buf Hst). split; congruence.
        -- destruct Hnz as [Hnz|Hnz]; apply Hnz; congruence.
Qed.

(** ** What fh_comp_raw returns *)

Lemma fh_valid_invalid_fh : fh_valid invalid_fh = false.
Proof. reflexivity. Qed.

(** The loop gives up with [invalid_fh] or leaves the three fields the
    caller filled in alone. *)
Lemma fh_comp_walk_fields fuel : ∀ work last pos fh,
  fh_comp_walk fuel work last pos fh = invalid_fh
  ∨ (dev (fh_comp_walk fuel work last pos fh) = dev fh
     ∧ ino (fh_comp_walk fuel work last pos fh) = ino fh
     ∧ gen (fh_comp_walk fuel work last pos fh) = gen fh).
Proof.
  induction fuel as [|fuel IH]; intros work last pos fh; [by left|].
  rewrite fh_comp_walk_S. cbv zeta.
  destruct (lstat fs _) as [buf|]; [|by left].
  destruct (_ <$> strchr _ _) as [l|]; [|by right].
  case_decide; [|by left].
  destruct (IH (<[l:=NUL]> (<[last:=slash]> work)) l (S pos)
              (set_inos fh pos (FH_HASH (st_ino buf)))) as [->|Hkeep];
    [by left | by right].
Qed.

Lemma fh_comp_raw_cases path need_dir :
  fh_comp_raw path need_dir = invalid_fh
  ∨ ∃ buf, lstat fs path = Some buf
      ∧ (need_dir = true → S_ISDIR (st_mode buf) = true)
      ∧ dev (fh_comp_raw path need_dir) = uint32 (st_dev buf)
      ∧ ino (fh_comp_raw path need_dir) = uint32 (st_ino buf)
      ∧ gen (fh_comp_raw path need_dir) = get_gen buf FD_NONE path.
Proof.
  unfold fh_comp_raw.
  destruct (lstat fs path) as [buf|]; [|by left].
  destruct (need_dir && negb (S_ISDIR (st_mode buf))) eqn:Hnd; [by left|].
  assert (need_dir = true → S_ISDIR (st_mode buf) = true) as Hdir.
  { intros ->. simpl in Hnd. by destruct (S_ISDIR (st_mode buf)). }
  case_decide.
  - right. by exists buf.
  - match goal with
    | |- context [fh_comp_walk ?f ?w ?l ?p ?h] =>
        destruct (fh_comp_walk_fields f w l p h) as [->|(Hd & Hi & Hg)]
    end; [by left|].
    right. exists buf. rewrite Hd, Hi, Hg. done.
Qed.

(** X1.  A valid handle from [fh_comp_raw] names the object [lstat]
    reported for the path: its [dev] and [ino] are the stat's device and
    inode number cut to 32 bits, neither of them zero, its [gen] is what
    [get_gen] gives for that stat, and when [need_dir] is set the object is
    a directory.  A path that cannot be stat'ed, or one that is no
    directory under [need_dir], never gets a valid handle. *)
Theorem fh_comp_raw_valid (path : cstring) (need_dir : bool) :
  fh_valid (fh_comp_raw path need_dir) = true →
  ∃ buf, lstat fs path = Some buf
    ∧ (need_dir = true → S_ISDIR (st_mode buf) = true)
    ∧ dev (fh_comp_raw path need_dir) = uint32 (st_dev buf)
    ∧ ino (fh_comp_raw path need_dir) = uint32 (st_ino buf)
    ∧ gen (fh_comp_raw path need_dir) = get_gen buf FD_NONE path
    ∧ uint32 (st_dev buf) ≠ 0%Z ∧ uint32 (st_ino buf) ≠ 0%Z.
Proof.
  intros Hv.
  destruct (fh_comp_raw_cases path need_dir)
    as [Hinv | (buf & Hst & Hdir & Hd & Hi & Hg)].
  { rewrite Hinv, fh_valid_invalid_fh in Hv. done. }
  exists buf. repeat split; try done.
  - rewrite <- Hd. unfold fh_valid in Hv.
    apply andb_true_iff in Hv as [Hv _]. by apply bool_decide_eq_true in Hv.
  - rewrite <- Hi. unfold fh_valid in Hv.
    apply andb_true_iff in Hv as [_ Hv]. by apply bool_decide_eq_true in Hv.
Qed.

(** X2.  A path of more than [FH_MAXLEN] components that fits the buffer
    [work] ([strlen(path) < NFS_MAXPATHLEN]) has no handle, whether it
    exists or not and whatever [need_dir] is: [fh_comp_raw] returns
    [invalid_fh], and [fh_comp] returns it without touching the cache. *)
Theorem fh_comp_depth_limit (s : state) (cs : list cstring)
    (need_dir : bool) :
  Forall component cs → length (path_of cs) < NFS_MAXPATHLEN →
  FH_MAXLEN < length cs → 0 < FH_MAXLEN →
  fh_comp_raw (path_of cs) need_dir = invalid_fh
  ∧ fh_comp s (path_of cs) need_dir = (invalid_fh, s).
Proof.
  intros Hcs _ Hdeep Hpos.
  assert (fh_comp_raw (path_of cs) need_dir = invalid_fh) as Hraw.
  { pose proof (fh_comp_raw_too_deep cs Hcs Hdeep Hpos) as Hfalse.
    unfold fh_comp_raw in *.
    destruct (lstat fs (path_of cs)) as [buf|]; [|done].
    destruct (need_dir && negb (S_ISDIR (st_mode buf))); [done|].
    exact Hfalse. }
  split; [done|]. unfold fh_comp. by rewrite Hraw, fh_valid_invalid_fh.
Qed.

(** ** fh_extend_type *)

(** X3.  [fh_extend_type] leaves the attribute cache valid exactly when
    [lstat] succeeded on the path and the mode has all the bits of [type],
    and then it holds that stat.  A handle that follows was extended with
    the device, inode and generation of that stat.  The converse fails at
    the depth limit: for a parent with [len == FH_MAXLEN] no handle
    follows although the attribute cache is valid.  The path cache is not
    touched. *)
Theorem fh_extend_type_st_cache (s : state) (new0 : unfs3_fh_t)
    (fh : nfs_fh3) (path : cstring) (type : Z) :
  (st_cache_valid (fh_extend_type s new0 fh path type).2 = true ↔
     ∃ buf, lstat fs path = Some buf ∧ Z.land (st_mode buf) type = type
       ∧ st_cache (fh_extend_type s new0 fh path type).2 = buf)
  ∧ (∀ len' H', (fh_extend_type s new0 fh path type).1 = Some (len', H') →
       st_cache_valid (fh_extend_type s new0 fh path type).2 = true
       ∧ len' = fh_len H'
       ∧ dev H' = uint32 (st_dev (st_cache (fh_extend_type s new0 fh path
                                               type).2))
       ∧ ino H' = uint32 (st_ino (st_cache (fh_extend_type s new0 fh path
                                               type).2))
       ∧ gen H' = get_gen (st_cache (fh_extend_type s new0 fh path type).2)
                    FD_NONE path)
  ∧ (len (fh_view fh) = FH_MAXLEN →
       handle_follows (fh_extend_type s new0 fh path type).1 = false)
  ∧ fh_cache (fh_extend_type s new0 fh path type).2 = fh_cache s.
Proof.
  unfold fh_extend_type.
  destruct (lstat fs path) as [buf|] eqn:Hst.
  2:{ simpl. repeat split; try done. by intros (buf & ? & _). }
  case_decide as Hty.
  { simpl. repeat split; try done. intros (buf' & [= <-] & ? & _). done. }
  cbn [fst snd].
  split; [|split; [|split]].
  - simpl. split; [intros _; by exists buf | done].
  - intros len' H'. unfold fh_extend_post, fh_extend.
    case_decide; [done|]. intros [= <- <-]. simpl. done.
  - intros Hfull. unfold fh_extend_post, fh_extend.
    by rewrite decide_True.
  - done.
Qed.

(** ** What the resolver returns *)

(** X4.  The resolver is sound.  For a handle with [len] other than 0, a
    path [fh_decomp_raw] returns starts with a slash and was probed during
    the scan as the object of the handle: [lstat] of it (under the doubled
    leading slash the scan uses) reported the handle's device and inode,
    and that stat is left in the attribute cache.  The one exception is the
    handle with zero [dev] and [ino], which also takes an entry whose
    [lstat] fails for its object.  When nothing is found the state is
    left as it was. *)
Theorem fh_decomp_raw_sound (s : state) (fh : unfs3_fh_t) :
  len fh ≠ 0 →
  match fh_decomp_raw s (Some fh) with
  | (Some r, s') =>
      head r = Some slash
      ∧ st_cache_valid s' = true
      ∧ st_dev (st_cache s') = dev fh ∧ st_ino (st_cache s') = ino fh
      ∧ (lstat fs (slash :: r) = Some (st_cache s')
         ∨ (lstat fs (slash :: r) = None ∧ dev fh = 0%Z ∧ ino fh = 0%Z))
      ∧ fh_cache s' = fh_cache s
  | (None, s') => s' = s
  end.
Proof.
  intros Hlen.
  destruct (fh_decomp_raw s (Some fh)) as [[r|] s'] eqn:Hraw.
  - apply fh_decomp_raw_Some in Hraw
      as [(? & _) | (_ & rest & buf & -> & Hp & ->)]; [done|].
    destruct Hp as (Hst & Hd & Hi). simpl.
    repeat split; try done.
    destruct Hst as [Hst | (Hst & Hz1 & Hz2)]; [by left|].
    right. repeat split; congruence.
  - unfold fh_decomp_raw in Hraw. rewrite decide_False in Hraw by done.
    destruct (fh_rec _ _ _ _) as [[r b]|]; [done|]. by injection Hraw.
Qed.

(** The scan reads of the handle its device, its inode number and the
    trail byte at [pos]. *)
Lemma fh_rec_scan_fh_ext fh1 fh2 pos lead descend1 descend2 buf entries :
  dev fh1 = dev fh2 → ino fh1 = ino fh2 →
  inos fh1 !! pos = inos fh2 !! pos →
  (∀ obj, descend1 obj = descend2 obj) →
  fh_rec_scan fh1 pos lead descend1 buf entries
  = fh_rec_scan fh2 pos lead descend2 buf entries.
Proof.
  intros Hd Hi Hh Hext. revert buf.
  induction entries as [|d_name entries IH]; intros buf; simpl; [done|].
  rewrite Hd, Hi, Hh, Hext.
  repeat case_decide; try done.
  by destruct (descend2 _).
Qed.

Lemma fh_rec_fh_ext fuel : ∀ fh1 fh2 pos lead,
  dev fh1 = dev fh2 → ino fh1 = ino fh2 → len fh1 = len fh2 →
  take (len fh1) (inos fh1) = take (len fh2) (inos fh2) →
  pos ≤ len fh1 →
  fh_rec fuel fh1 pos lead = fh_rec fuel fh2 pos lead.
Proof.
  induction fuel as [|fuel IH]; intros fh1 fh2 pos lead Hd Hi Hl Ht Hpos;
    [done|].
  rewrite !fh_rec_S. rewrite <- Hl.
  case_decide as Hend; [done|].
  destruct (readdir fs lead) as [entries|]; [|done].
  apply fh_rec_scan_fh_ext; try done.
  - rewrite <- (lookup_take_lt (inos fh1) (len fh1)) by lia.
    rewrite <- (lookup_take_lt (inos fh2) (len fh2)) by lia.
    by rewrite Ht.
  - intros obj. apply IH; try done. lia.
Qed.

(** X5.  The resolver reads of a handle only [dev], [ino], [len] and the
    first [len] trail bytes: two handles that agree on these resolve
    alike.  In particular the generation number is not compared, and what
    lies in [inos] beyond [len] does not matter. *)
Theorem fh_decomp_raw_reads (s : state) (fh1 fh2 : unfs3_fh_t) :
  dev fh1 = dev fh2 → ino fh1 = ino fh2 → len fh1 = len fh2 →
  take (len fh1) (inos fh1) = take (len fh2) (inos fh2) →
  fh_decomp_raw s (Some fh1) = fh_decomp_raw s (Some fh2).
Proof.
  intros Hd Hi Hl Ht. unfold fh_decomp_raw.
  rewrite (fh_rec_fh_ext _ fh1 fh2) by (done || lia).
  by rewrite Hl.
Qed.

(** The scan only reports entries whose path fits the buffers. *)
Lemma fh_rec_scan_short fh pos lead descend buf entries r b :
  fh_rec_scan fh pos lead descend buf entries = Some (r, b) →
  (∃ d_name, r = sprintf_s_slash_s (drop 1 lead) d_name
     ∧ length lead + length d_name + 1 < NFS_MAXPATHLEN)
  ∨ (∃ d_name, descend (sprintf_s_slash_s lead d_name) = Some (r, b)).
Proof.
  revert buf. induction entries as [|d_name entries IH]; intros buf; simpl;
    [done|].
  case_decide as Hshort; [|by apply IH].
  case_decide.
  - intros [= <- <-]. left. by exists d_name.
  - case_decide; [|by apply IH].
    destruct (descend (sprintf_s_slash_s lead d_name)) as [r'|] eqn:Hdesc;
      [|by apply IH].
    intros [= ->]. right. by exists d_name.
Qed.

Lemma fh_rec_short fuel : ∀ fh pos lead r b,
  lead ≠ [] →
  fh_rec fuel fh pos lead = Some (r, b) →
  length r + 1 < NFS_MAXPATHLEN.
Proof.
  induction fuel as [|fuel IH]; intros fh pos lead r b Hne; [done|].
  rewrite fh_rec_S. case_decide; [done|].
  destruct (readdir fs lead) as [entries|]; [|done].
  intros Hs. apply fh_rec_scan_short in Hs
    as [(d_name & -> & Hshort) | (d_name & Hdesc)].
  - unfold sprintf_s_slash_s. rewrite length_app, length_drop. simpl.
    destruct lead; [done|]. simpl in *. lia.
  - apply IH in Hdesc; [done|]. unfold sprintf_s_slash_s. by destruct lead.
Qed.

(** X6.  The paths [fh_decomp_raw] returns fit the buffers they go to:
    with its terminating NUL, a resolved path is shorter than
    [NFS_MAXPATHLEN], the size of the static [result] buffer and of the
    [path] field of a cache slot. *)
Theorem fh_decomp_raw_fits (s s' : state) (fh : unfs3_fh_t) (r : cstring) :
  2 < NFS_MAXPATHLEN →
  fh_decomp_raw s (Some fh) = (Some r, s') →
  length r + 1 < NFS_MAXPATHLEN.
Proof.
  intros Hbig. unfold fh_decomp_raw. case_decide.
  - intros [= <- _]. simpl. lia.
  - destruct (fh_rec _ _ _ _) as [[r' b]|] eqn:Hrec; [|done].
    intros [= <- _]. by apply fh_rec_short in Hrec.
Qed.

(** ** The cache as a map from (dev, ino) to paths *)

Lemma fh_cache_index_scan_first s n : ∀ i0 d i idx,
  fh_cache_index_scan s n i0 d i = Some idx ↔
  i0 ≤ idx < i0 + n
  ∧ (c_dev (slot s idx) = d ∧ c_ino (slot s idx) = i)
  ∧ ∀ j, i0 ≤ j < idx → ¬ (c_dev (slot s j) = d ∧ c_ino (slot s j) = i).
Proof.
  induction n as [|n IH]; intros i0 d i idx; simpl.
  { split; [done | intros [? _]; lia]. }
  case_decide as Hm.
  - split.
    + intros [= <-]. split; [lia|]. split; [done|]. intros j Hj. lia.
    + intros (Hr & Hidx & Hfirst).
      destruct (decide (idx = i0)) as [->|Hne]; [done|].
      exfalso. apply (Hfirst i0); [lia | done].
  - rewrite IH. split.
    + intros (Hr & Hidx & Hfirst). split; [lia|]. split; [done|].
      intros j Hj. destruct (decide (j = i0)) as [->|Hne]; [done|].
      apply Hfirst. lia.
    + intros (Hr & Hidx & Hfirst).
      assert (idx ≠ i0) by (intros ->; done).
      split; [lia|]. split; [done|]. intros j Hj. apply Hfirst. lia.
Qed.

Lemma fh_cache_index_scan_None s n : ∀ i0 d i,
  fh_cache_index_scan s n i0 d i = None ↔
  ∀ j, i0 ≤ j < i0 + n → ¬ (c_dev (slot s j) = d ∧ c_ino (slot s j) = i).
Proof.
  induction n as [|n IH]; intros i0 d i; simpl.
  { split; [intros _ j Hj; lia | done]. }
  case_decide as Hm.
  - split; [done|]. intros Hno. exfalso. apply (Hno i0); [lia | done].
  - rewrite IH. split.
    + intros Hno j Hj. destruct (decide (j = i0)) as [->|Hne]; [done|].
      apply Hno. lia.
    + intros Hno j Hj. apply Hno. lia.
Qed.

Lemma fh_cache_index_first s d i idx :
  fh_cache_index s d i = Some idx ↔
  idx ≤ fh_cache_max s
  ∧ (c_dev (slot s idx) = d ∧ c_ino (slot s idx) = i)
  ∧ ∀ j, j < idx → ¬ (c_dev (slot s j) = d ∧ c_ino (slot s j) = i).
Proof.
  unfold fh_cache_index. rewrite fh_cache_index_scan_first. split.
  - intros (Hr & Hm & Hf). split; [lia|]. split; [done|].
    intros j Hj. apply Hf. lia.
  - intros (Hr & Hm & Hf). split; [lia|]. split; [done|].
    intros j Hj. apply Hf. lia.
Qed.

Lemma fh_cache_index_None s d i :
  fh_cache_index s d i = None ↔
  ∀ j, j ≤ fh_cache_max s →
       ¬ (c_dev (slot s j) = d ∧ c_ino (slot s j) = i).
Proof.
  unfold fh_cache_index. rewrite fh_cache_index_scan_None. split.
  - intros Hno j Hj. apply Hno. lia.
  - intros Hno j Hj. apply Hno. lia.
Qed.

(** The scan of [fh_cache_lru] stops at the first slot with stamp 0. *)
Lemma fh_cache_lru_scan_free s n : ∀ i0 best best_idx,
  (∃ j, i0 ≤ j < i0 + n ∧ c_use (slot s j) = 0%Z) →
  c_use (slot s (fh_cache_lru_scan s n i0 best best_idx)) = 0%Z.
Proof.
  induction n as [|n IH]; intros i0 best best_idx (j & Hj & Hfree); simpl;
    [lia|].
  case_decide as H0; [done|].
  assert (∃ j, S i0 ≤ j < S i0 + n ∧ c_use (slot s j) = 0%Z) as Hex.
  { exists j. split; [|done].
    destruct (decide (j = i0)) as [->|Hne]; [done | lia]. }
  case_decide; by apply IH.
Qed.

(** What [fh_cache_add] does to the state: one slot [idx] gets the new
    entry under the next stamp, the slot found for the key if there is one
    and otherwise the one [fh_cache_lru] picks; nothing else changes but
    the LRU counter and, in a cache that is still filling, [fh_cache_max]. *)
Lemma fh_cache_add_spec s d i path :
  state_ok s →
  ∃ idx,
    idx < CACHE_ENTRIES
    ∧ idx ≤ fh_cache_max (fh_cache_add s d i path)
    ∧ slot (fh_cache_add s d i path) idx
      = mkslot d i path (fh_cache_time s + 1)
    ∧ (∀ j, j ≠ idx → slot (fh_cache_add s d i path) j = slot s j)
    ∧ fh_cache_time (fh_cache_add s d i path) = (fh_cache_time s + 1)%Z
    ∧ fh_cache_use (fh_cache_add s d i path) = fh_cache_use s
    ∧ fh_cache_hit (fh_cache_add s d i path) = fh_cache_hit s
    ∧ length (fh_cache (fh_cache_add s d i path)) = length (fh_cache s)
    ∧ ((fh_cache_index s d i = Some idx
        ∧ fh_cache_max (fh_cache_add s d i path) = fh_cache_max s)
       ∨ (fh_cache_index s d i = None
          ∧ fh_cache_max s < CACHE_ENTRIES - 1 ∧ idx = fh_cache_max s
          ∧ fh_cache_max (fh_cache_add s d i path) = S (fh_cache_max s))
       ∨ (fh_cache_index s d i = None
          ∧ fh_cache_max s = CACHE_ENTRIES - 1
          ∧ idx = fh_cache_lru_scan s CACHE_ENTRIES 0 (-1) 0
          ∧ fh_cache_max (fh_cache_add s d i path) = fh_cache_max s)).
Proof.
  intros [Hlen Hmax]. rewrite fh_cache_add_eq.
  destruct (fh_cache_index s d i) as [idx|] eqn:Hidx.
  - apply fh_cache_index_Some in Hidx as Hin. exists idx.
    rewrite decide_True by lia.
    split; [lia|]. split; [simpl; lia|]. split.
    { unfold slot. simpl. by rewrite list_lookup_insert_eq by lia. }
    split.
    { intros j Hj. unfold slot. simpl. by rewrite list_lookup_insert_ne. }
    simpl. rewrite length_insert. repeat split; try done. by left.
  - unfold fh_cache_lru. case_decide as Hcold.
    + exists (fh_cache_max s). simpl. rewrite decide_True by lia.
      split; [lia|]. split; [lia|]. split.
      { unfold slot. simpl. by rewrite list_lookup_insert_eq by lia. }
      split.
      { intros j Hj. unfold slot. simpl. by rewrite list_lookup_insert_ne. }
      rewrite length_insert. repeat split; try done.
      right. left. repeat split; try done. lia.
    + pose proof (fh_cache_lru_scan_bound s CACHE_ENTRIES 0 (-1) 0
                    ltac:(lia) ltac:(lia)) as Hb.
      exists (fh_cache_lru_scan s CACHE_ENTRIES 0 (-1) 0).
      rewrite decide_True by lia.
      split; [lia|]. split; [simpl; lia|]. split.
      { unfold slot. simpl. by rewrite list_lookup_insert_eq by lia. }
      split.
      { intros j Hj. unfold slot. simpl. by rewrite list_lookup_insert_ne. }
      simpl. rewrite length_insert. repeat split; try done.
      right. right. repeat split; try done. lia.
Qed.

(** After [fh_cache_add] the key is found in the slot that was written. *)
Lemma fh_cache_add_index s d i path :
  state_ok s →
  ∃ idx, fh_cache_index (fh_cache_add s d i path) d i = Some idx
    ∧ idx < length (fh_cache (fh_cache_add s d i path))
    ∧ slot (fh_cache_add s d i path) idx
      = mkslot d i path (fh_cache_time s + 1).
Proof.
  intros Hok.
  destruct (fh_cache_add_spec s d i path Hok)
    as (idx & Hlt & Hle & Hslot & Hother & _ & _ & _ & Hlen' & Hcase).
  exists idx. split; [|split; [destruct Hok; lia | done]].
  apply fh_cache_index_first. split; [done|]. split; [by rewrite Hslot|].
  intros j Hj. rewrite Hother by lia.
  destruct Hcase as [(Hidx & _) | [(Hidx & _ & -> & _) | (Hidx & Hfull & _)]].
  - apply fh_cache_index_first in Hidx as (_ & _ & Hfirst). by apply Hfirst.
  - apply (proj1 (fh_cache_index_None s d i) Hidx). lia.
  - apply (proj1 (fh_cache_index_None s d i) Hidx). lia.
Qed.

(** A lookup that finds a slot whose path still leads to the object. *)
Lemma fh_cache_lookup_fresh s d i idx buf :
  fh_cache_index s d i = Some idx → idx < length (fh_cache s) →
  lstat fs (c_path (slot s idx)) = Some buf →
  st_dev buf = d → st_ino buf = i →
  ∃ s', fh_cache_lookup s d i = (Some (c_path (slot s idx)), s')
    ∧ st_cache_valid s' = true ∧ st_cache s' = buf
    ∧ fh_cache_use s' = fh_cache_use s ∧ fh_cache_hit s' = fh_cache_hit s
    ∧ fh_cache_max s' = fh_cache_max s
    ∧ length (fh_cache s') = length (fh_cache s)
    ∧ fh_cache_time s' = (fh_cache_time s + 1)%Z
    ∧ slot s' idx = mkslot (c_dev (slot s idx)) (c_ino (slot s idx))
                      (c_path (slot s idx)) (fh_cache_time s + 1)
    ∧ ∀ j, j ≠ idx → slot s' j = slot s j.
Proof.
  intros Hidx Hlt Hst Hd Hi. unfold fh_cache_lookup.
  rewrite Hidx, Hst. rewrite decide_True by done.
  unfold fh_cache_next.
  assert (∀ t e, slot (set_st_cache
                         (set_slot (set_fh_cache_time s t) idx e)
                         true buf) idx = e) as Hslot.
  { intros t e. unfold slot, set_st_cache, set_slot, set_fh_cache_time.
    simpl. by rewrite list_lookup_insert_eq. }
  assert (∀ t e j, j ≠ idx →
            slot (set_st_cache
                    (set_slot (set_fh_cache_time s t) idx e)
                    true buf) j = slot s j) as Hother.
  { intros t e j Hj. unfold slot, set_st_cache, set_slot, set_fh_cache_time.
    simpl. by rewrite list_lookup_insert_ne. }
  rewrite Hslot. eexists. split; [reflexivity|]. rewrite Hslot.
  split; [done|]. split; [done|]. split; [done|]. split; [done|].
  split; [done|]. split; [simpl; by rewrite length_insert|].
  split; [done|]. split; [done|]. intros j Hj. by apply Hother.
Qed.

(** X7.  Insert and look up.  After [fh_cache_add(dev, ino, path)] a
    lookup of [(dev, ino)] returns that path and puts its stat in the
    attribute cache, if [lstat] of the path reports [(dev, ino)]; if not,
    the lookup is a miss: it never returns another path. *)
Theorem fh_cache_add_lookup (s : state) (d i : Z) (path : cstring) :
  state_ok s →
  (∀ buf, lstat fs path = Some buf → st_dev buf = d → st_ino buf = i →
     ∃ s', fh_cache_lookup (fh_cache_add s d i path) d i = (Some path, s')
       ∧ st_cache_valid s' = true ∧ st_cache s' = buf)
  ∧ ((∀ buf, lstat fs path = Some buf →
             ¬ (st_dev buf = d ∧ st_ino buf = i)) →
     (fh_cache_lookup (fh_cache_add s d i path) d i).1 = None).
Proof.
  intros Hok.
  destruct (fh_cache_add_index s d i path Hok) as (idx & Hidx & Hlt & Hslot).
  split.
  - intros buf Hst Hd Hi.
    destruct (fh_cache_lookup_fresh (fh_cache_add s d i path) d i idx buf)
      as (s' & Hlk & Hv & Hc & _); try done.
    { by rewrite Hslot. }
    exists s'. rewrite Hlk, Hslot. done.
  - intros Hstale. unfold fh_cache_lookup.
    rewrite Hidx, Hslot. simpl.
    destruct (lstat fs path) as [buf|] eqn:Hst; [|done].
    rewrite decide_False; [done|]. by apply Hstale.
Qed.

(** ** The invariant of the cache *)

Lemma slot_state0 n j : slot (state0 n) j = empty_slot.
Proof.
  unfold slot, state0. simpl.
  destruct (replicate n empty_slot !! j) as [e|] eqn:He; [|done].
  by apply lookup_replicate in He as [-> _].
Qed.

Lemma cache_inv_state0 : 0 < CACHE_ENTRIES → cache_inv (state0 CACHE_ENTRIES).
Proof.
  intros Hn. split; [by apply state0_ok|].
  repeat split; intros; rewrite ?slot_state0 in *; simpl in *; try done.
  destruct H1; done.
Qed.

(** The invariant speaks of the array, [fh_cache_max] and the LRU counter
    only. *)
Lemma cache_inv_ext s1 s2 :
  fh_cache s2 = fh_cache s1 → fh_cache_max s2 = fh_cache_max s1 →
  fh_cache_time s2 = fh_cache_time s1 →
  cache_inv s1 → cache_inv s2.
Proof.
  intros Hc Hm Ht. unfold cache_inv, state_ok, slot.
  by rewrite Hc, Hm, Ht.
Qed.

Lemma cache_inv_time s : cache_inv s → (0 ≤ fh_cache_time s)%Z.
Proof. intros (_ & Hst & _). specialize (Hst 0). lia. Qed.

Lemma cache_inv_add s d i path :
  cache_inv s → cache_inv (fh_cache_add s d i path).
Proof.
  intros Hinv. pose proof (cache_inv_time s Hinv) as Ht.
  destruct Hinv as (Hok & Hst & Hzero & Hbeyond & Hnext & Huniq).
  destruct (fh_cache_add_spec s d i path Hok)
    as (idx & Hlt & Hle & Hslot & Hother & Htime & _ & _ & Hlen & Hcase).
  assert (∀ j, slot (fh_cache_add s d i path) j
               = if decide (j = idx)
                 then mkslot d i path (fh_cache_time s + 1)
                 else slot s j) as Hsl.
  { intros j. case_decide as Hj; [by subst j | by apply Hother]. }
  assert (∀ k, k ≠ idx → c_dev (slot s k) = d → c_ino (slot s k) = i →
               (d ≠ 0 ∨ i ≠ 0)%Z → False) as Hfresh.
  { intros k Hk Hd Hi Hnz.
    assert (k ≤ fh_cache_max s) as Hkm.
    { destruct (decide (k ≤ fh_cache_max s)) as [|Hgt]; [done|].
      rewrite Hbeyond in Hd, Hi by lia. simpl in *. lia. }
    destruct Hcase as [(Hidx & _) | [(Hidx & _) | (Hidx & _)]].
    - apply fh_cache_index_Some in Hidx as (_ & Hd' & Hi').
      apply Hk. apply Huniq; [congruence | congruence | ].
      rewrite Hd, Hi. done.
    - by apply (proj1 (fh_cache_index_None s d i) Hidx k Hkm).
    - by apply (proj1 (fh_cache_index_None s d i) Hidx k Hkm). }
  destruct Hok as [Hlen0 Hmax0].
  split; [|split; [|split; [|split; [|split]]]].
  - split; [lia|].
    destruct Hcase as [(_ & ->) | [(_ & ? & _ & ->) | (_ & _ & _ & ->)]]; lia.
  - intros j. rewrite Hsl, Htime. case_decide; simpl.
    + lia.
    + specialize (Hst j). lia.
  - intros j. rewrite Hsl. case_decide; simpl; [lia | apply Hzero].
  - intros j Hj. rewrite Hsl. rewrite decide_False by lia.
    apply Hbeyond.
    destruct Hcase as [(_ & Hm) | [(_ & _ & _ & Hm) | (_ & _ & _ & Hm)]];
      rewrite Hm in Hj; lia.
  - intros Hcold. rewrite Hsl.
    destruct Hcase as [(Hidx & Hm) | [(_ & _ & -> & Hm) | (_ & Hfull & _ & Hm)]];
      rewrite Hm in *.
    + case_decide as Hj; [|by apply Hnext]. simpl.
      apply fh_cache_index_Some in Hidx as (_ & Hd' & Hi').
      rewrite <- Hj in Hd', Hi'. rewrite <- Hd', <- Hi'. by apply Hnext.
    + rewrite decide_False by lia. by rewrite Hbeyond by lia.
    + lia.
  - intros j k. rewrite !Hsl.
    case_decide as Hj; case_decide as Hk; simpl.
    + congruence.
    + intros Hd Hi Hnz. exfalso. by apply (Hfresh k).
    + intros Hd Hi Hnz. exfalso. apply (Hfresh j); try done.
      by rewrite Hd, Hi in Hnz.
    + apply Huniq.
Qed.

Lemma cache_inv_inval s idx : cache_inv s → cache_inv (fh_cache_inval s idx).
Proof.
  intros Hinv. pose proof (cache_inv_time s Hinv) as Ht.
  destruct Hinv as (Hok & Hst & Hzero & Hbeyond & Hnext & Huniq).
  rewrite fh_cache_inval_eq.
  destruct (decide (idx < length (fh_cache s))) as [Hin|Hout];
    [|rewrite set_slot_ge by lia; done].
  assert (∀ j, slot (set_slot s idx empty_slot) j
               = if decide (j = idx) then empty_slot else slot s j) as Hsl.
  { intros j. case_decide as Hj.
    - subst j. by apply slot_set_slot_eq.
    - by apply slot_set_slot_ne. }
  destruct Hok as [Hlen0 Hmax0].
  split; [|split; [|split; [|split; [|split]]]].
  - split; simpl; [by rewrite length_insert | done].
  - intros j. rewrite Hsl. case_decide; simpl; [lia | apply Hst].
  - intros j. rewrite Hsl. case_decide; simpl; [done | apply Hzero].
  - intros j Hj. rewrite Hsl. case_decide; [done | by apply Hbeyond].
  - intros Hcold. rewrite Hsl. simpl. case_decide; [done | by apply Hnext].
  - intros j k. rewrite !Hsl.
    case_decide as Hj; case_decide as Hk; simpl; try congruence.
    + intros _ _ [?|?]; done.
    + intros Hd Hi [Hnz|Hnz]; congruence.
    + apply Huniq.
Qed.

Lemma cache_inv_lookup s d i :
  cache_inv s → cache_inv (fh_cache_lookup s d i).2.
Proof.
  intros Hinv.
  destruct (fh_cache_index s d i) as [idx|] eqn:Hidx;
    [|unfold fh_cache_lookup; by rewrite Hidx].
  destruct (lstat fs (c_path (slot s idx))) as [buf|] eqn:Hst;
    [|unfold fh_cache_lookup; rewrite Hidx, Hst; by apply cache_inv_inval].
  destruct (decide (st_dev buf = d ∧ st_ino buf = i)) as [[Hd Hi]|Hno];
    [|unfold fh_cache_lookup; rewrite Hidx, Hst, decide_False by done;
      by apply cache_inv_inval].
  pose proof (cache_inv_time s Hinv) as Ht.
  destruct Hinv as (Hok & Hstamp & Hzero & Hbeyond & Hnext & Huniq).
  pose proof (fh_cache_index_lt s d i idx Hok Hidx) as Hlt.
  apply fh_cache_index_Some in Hidx as Hin.
  destruct (fh_cache_lookup_fresh s d i idx buf Hidx Hlt Hst Hd Hi)
    as (s' & -> & _ & _ & _ & _ & Hmax & Hlen & Htime & Hslot & Hother).
  cbn [snd].
  assert (∀ j, c_dev (slot s' j) = c_dev (slot s j)
               ∧ c_ino (slot s' j) = c_ino (slot s j)
               ∧ (c_use (slot s' j) = c_use (slot s j)
                  ∨ (c_use (slot s' j) = fh_cache_time s + 1)%Z)) as Hsl.
  { intros j. destruct (decide (j = idx)) as [->|Hj].
    - rewrite Hslot. simpl. auto.
    - rewrite Hother by done. auto. }
  destruct Hok as [Hlen0 Hmax0].
  split; [|split; [|split; [|split; [|split]]]].
  - split; [lia | lia].
  - intros j. rewrite Htime. destruct (Hsl j) as (_ & _ & [->| ->]);
      [specialize (Hstamp j); lia | lia].
  - intros j Huse. destruct (Hsl j) as (-> & -> & [Hu|Hu]);
      [apply Hzero; congruence | lia].
  - intros j Hj. rewrite Hmax in Hj. rewrite Hother by lia.
    by apply Hbeyond.
  - rewrite Hmax. intros Hcold.
    destruct (Hsl (fh_cache_max s)) as (-> & -> & _). by apply Hnext.
  - intros j k. destruct (Hsl j) as (-> & -> & _).
    destruct (Hsl k) as (-> & -> & _). apply Huniq.
Qed.

Lemma fh_decomp_raw_cache s fh :
  fh_cache (fh_decomp_raw s fh).2 = fh_cache s
  ∧ fh_cache_max (fh_decomp_raw s fh).2 = fh_cache_max s
  ∧ fh_cache_time (fh_decomp_raw s fh).2 = fh_cache_time s
  ∧ fh_cache_use (fh_decomp_raw s fh).2 = fh_cache_use s
  ∧ fh_cache_hit (fh_decomp_raw s fh).2 = fh_cache_hit s.
Proof.
  unfold fh_decomp_raw. destruct fh as [fh|]; [|done].
  case_decide; [done|].
  by destruct (fh_rec _ _ _ _) as [[r b]|].
Qed.

(** X8.  The cache keeps its invariant.  Starting from the state of a
    fresh process, after any sequence of [fh_comp], [fh_decomp] and
    [fh_cache_add] calls: every stamp lies between 0 and the LRU counter,
    slots beyond [fh_cache_max] are unused, and no two slots hold the same
    (dev, ino) unless it is (0, 0), the key of unused and invalidated
    slots.  [fh_cache_time] is a C [int]; the statement is for a counter
    that has not reached [INT_MAX]. *)
Theorem cache_inv_kept (s : state) :
  cache_inv s → (fh_cache_time s < 2 ^ 31 - 1)%Z →
  (∀ d i path, cache_inv (fh_cache_add s d i path))
  ∧ (∀ path need_dir, cache_inv (fh_comp s path need_dir).2)
  ∧ (∀ fh, cache_inv (fh_decomp s fh).2).
Proof.
  intros Hinv _. split; [|split].
  - intros d i path. by apply cache_inv_add.
  - intros path need_dir. unfold fh_comp.
    destruct (fh_valid _); cbn [snd]; [by apply cache_inv_add | done].
  - intros fh. unfold fh_decomp.
    destruct (nfh_valid fh); cbn [negb].
    2:{ cbn [snd]. by apply (cache_inv_ext s). }
    pose proof (cache_inv_lookup s (dev (fh_view fh)) (ino (fh_view fh)) Hinv)
      as Hlk.
    destruct (fh_cache_lookup s _ _) as [[p|] s1]; cbn [snd] in Hlk.
    { cbn [snd]. by apply (cache_inv_ext s1). }
    assert (cache_inv (set_fh_cache_use s1 (fh_cache_use s1 + 1))) as Hs2
      by (by apply (cache_inv_ext s1)).
    revert Hs2. generalize (set_fh_cache_use s1 (fh_cache_use s1 + 1)).
    intros s2 Hs2.
    destruct (fh_decomp_raw_cache s2 (Some (fh_view fh)))
      as (Hc & Hm & Ht & _).
    destruct (fh_decomp_raw s2 (Some (fh_view fh))) as [[r|] s3];
      cbn [snd] in *.
    + apply cache_inv_add. by apply (cache_inv_ext s2).
    + by apply (cache_inv_ext s2).
Qed.


(** X9.  Nothing is evicted while there is room.  As long as slots are
    still being handed out, or some slot carries the stamp 0, adding an
    entry leaves every live entry (one whose key is not (0, 0)) for
    another object in its slot. *)
Theorem fh_cache_add_keeps_live (s : state) (d i : Z) (path : cstring)
    (j : nat) :
  cache_inv s →
  (fh_cache_max s < CACHE_ENTRIES - 1
   ∨ ∃ k, k < CACHE_ENTRIES ∧ c_use (slot s k) = 0%Z) →
  (c_dev (slot s j) ≠ 0 ∨ c_ino (slot s j) ≠ 0)%Z →
  ¬ (c_dev (slot s j) = d ∧ c_ino (slot s j) = i) →
  slot (fh_cache_add s d i path) j = slot s j.
Proof.
  intros (Hok & Hst & Hzero & Hbeyond & Hnext & Huniq) Hroom Hlive Hkey.
  destruct (fh_cache_add_spec s d i path Hok)
    as (idx & Hlt & Hle & Hslot & Hother & _ & _ & _ & _ & Hcase).
  apply Hother. intros ->.
  destruct Hcase as [(Hidx & _) | [(_ & Hcold & -> & _) | (_ & Hfull & -> & _)]].
  - apply fh_cache_index_Some in Hidx as (_ & Hd & Hi). by apply Hkey.
  - destruct (Hnext Hcold) as [Hd Hi]. lia.
  - destruct Hroom as [Hcold | (k & Hk & Hfree)]; [lia|].
    destruct (Hzero (fh_cache_lru_scan s CACHE_ENTRIES 0 (-1) 0)) as [Hd Hi];
      [|lia].
    apply fh_cache_lru_scan_free. exists k. split; [lia | done].
Qed.

(** X10.  The entry just added is the most recently used one: it is the
    slot a lookup of its key finds, and its stamp is larger than the stamp
    of every other slot.  [fh_cache_time] is a C [int]; the statement is
    for a counter that has not reached [INT_MAX]. *)
Theorem fh_cache_add_newest (s : state) (d i : Z) (path : cstring) :
  cache_inv s → (fh_cache_time s < 2 ^ 31 - 1)%Z →
  ∃ idx,
    fh_cache_index (fh_cache_add s d i path) d i = Some idx
    ∧ slot (fh_cache_add s d i path) idx
      = mkslot d i path (fh_cache_time s + 1)
    ∧ ∀ j, j ≠ idx →
        (c_use (slot (fh_cache_add s d i path) j)
         < c_use (slot (fh_cache_add s d i path) idx))%Z.
Proof.
  intros (Hok & Hst & _) _.
  destruct (fh_cache_add_index s d i path Hok) as (idx & Hidx & Hlt & Hslot).
  destruct (fh_cache_add_spec s d i path Hok)
    as (idx' & _ & _ & Hslot' & Hother & _).
  assert (idx' = idx) as ->.
  { destruct (decide (idx' = idx)) as [|Hne]; [done|].
    rewrite Hother in Hslot by done.
    specialize (Hst idx). rewrite Hslot in Hst. simpl in Hst. lia. }
  exists idx. split; [done|]. split; [done|].
  intros j Hj. rewrite Hslot, Hother by done. simpl.
  specialize (Hst j). lia.
Qed.

(** ** fh_decomp and the module state *)

Lemma fh_cache_lookup_miss s d i s' :
  fh_cache_lookup s d i = (None, s') →
  st_cache_valid s' = st_cache_valid s ∧ st_cache s' = st_cache s
  ∧ fh_cache_time s' = fh_cache_time s.
Proof.
  unfold fh_cache_lookup.
  destruct (fh_cache_index s d i) as [idx|]; [|by intros [= <-]].
  destruct (lstat fs _) as [buf|]; [|by intros [= <-]].
  case_decide; [done | by intros [= <-]].
Qed.

Lemma fh_cache_lookup_counters s d i :
  fh_cache_use (fh_cache_lookup s d i).2 = fh_cache_use s
  ∧ fh_cache_hit (fh_cache_lookup s d i).2 = fh_cache_hit s.
Proof.
  unfold fh_cache_lookup.
  destruct (fh_cache_index s d i) as [idx|]; [|done].
  destruct (lstat fs _) as [buf|]; [|done].
  case_decide; done.
Qed.

Lemma fh_cache_add_counters s d i path :
  fh_cache_use (fh_cache_add s d i path) = fh_cache_use s
  ∧ fh_cache_hit (fh_cache_add s d i path) = fh_cache_hit s.
Proof.
  rewrite fh_cache_add_eq.
  destruct (fh_cache_index s d i); simpl; [done|].
  unfold fh_cache_lru. case_decide; done.
Qed.

(** X11.  [fh_decomp] and the attribute cache.  A call that returns NULL
    leaves [st_cache_valid] FALSE.  A call that returns a path leaves it
    TRUE with the stat of an object that has the device and inode number
    of the handle, with one exception: for a handle with [len] 0 that is
    not answered from the path cache the call returns "/" and leaves
    [st_cache_valid] and [st_cache] as they were before the call,
    whatever object they describe. *)
Theorem fh_decomp_st_cache (s : state) (fh : nfs_fh3) :
  state_ok s →
  match fh_decomp s fh with
  | (None, s') => st_cache_valid s' = false
  | (Some r, s') =>
      (st_cache_valid s' = true
       ∧ st_dev (st_cache s') = dev (fh_view fh)
       ∧ st_ino (st_cache s') = ino (fh_view fh))
      ∨ (len (fh_view fh) = 0 ∧ r = lit "/"
         ∧ (fh_cache_lookup s (dev (fh_view fh)) (ino (fh_view fh))).1 = None
         ∧ st_cache_valid s' = st_cache_valid s
         ∧ st_cache s' = st_cache s)
  end.
Proof.
  intros Hok. unfold fh_decomp.
  destruct (nfh_valid fh); cbn [negb]; [|done].
  destruct (fh_cache_lookup s _ _) as [[p|] s1] eqn:Hlk.
  - left. apply fh_cache_lookup_hit in Hlk; [|done].
    destruct Hlk as (idx & buf & _ & _ & _ & Hd & Hi & Hv & Hc & _).
    simpl. by rewrite Hc.
  - apply fh_cache_lookup_miss in Hlk as (Hv & Hc & _).
    match goal with
    | |- context [fh_decomp_raw ?a ?b] =>
        destruct (fh_decomp_raw a b) as [[r|] s2] eqn:Hraw
    end; [|done].
    destruct (fh_cache_add_st_cache s2 (dev (fh_view fh)) (ino (fh_view fh)) r)
      as [-> ->].
    apply fh_decomp_raw_Some in Hraw.
    destruct Hraw as [(Hl & -> & ->) | (_ & rest & buf & _ & Hp & ->)].
    + right. done.
    + left. destruct Hp as (_ & Hd & Hi). done.
Qed.

(** X12.  The statistics.  [fh_decomp] counts one use for every handle
    that passes [nfh_valid] and none for one that does not; it counts a
    hit exactly when [fh_cache_lookup] answers; hits never exceed uses.
    Both counters are C [int]s; the statement is for counters that have
    not reached [INT_MAX]. *)
Theorem fh_decomp_counters (s : state) (fh : nfs_fh3) :
  (fh_cache_use s < 2 ^ 31 - 1)%Z → (fh_cache_hit s ≤ fh_cache_use s)%Z →
  fh_cache_use (fh_decomp s fh).2
  = (fh_cache_use s + if nfh_valid fh then 1 else 0)%Z
  ∧ fh_cache_hit (fh_decomp s fh).2
    = (fh_cache_hit s
       + if nfh_valid fh
            && bool_decide (is_Some (fh_cache_lookup s (dev (fh_view fh))
                                       (ino (fh_view fh))).1)
         then 1 else 0)%Z
  ∧ (fh_cache_hit (fh_decomp s fh).2 ≤ fh_cache_use (fh_decomp s fh).2)%Z.
Proof.
  intros _ Hle.
  assert (fh_cache_use (fh_decomp s fh).2
          = (fh_cache_use s + if nfh_valid fh then 1 else 0)%Z
          ∧ fh_cache_hit (fh_decomp s fh).2
            = (fh_cache_hit s
               + if nfh_valid fh
                    && bool_decide
                         (is_Some (fh_cache_lookup s (dev (fh_view fh))
                                     (ino (fh_view fh))).1)
                 then 1 else 0)%Z) as [Hu Hh].
  { unfold fh_decomp.
    destruct (nfh_valid fh); cbn [negb andb snd]; [|simpl; lia].
    destruct (fh_cache_lookup_counters s (dev (fh_view fh)) (ino (fh_view fh)))
      as [Hu Hh].
    destruct (fh_cache_lookup s _ _) as [[p|] s1]; cbn [fst snd] in *.
    { rewrite bool_decide_true by done. simpl. lia. }
    rewrite bool_decide_false by (by intros [? ?]).
    pose proof (fh_decomp_raw_cache (set_fh_cache_use s1 (fh_cache_use s1 + 1))
                  (Some (fh_view fh))) as (_ & _ & _ & Hu2 & Hh2).
    destruct (fh_decomp_raw _ _) as [[r|] s2]; cbn [snd] in *.
    - destruct (fh_cache_add_counters s2 (dev (fh_view fh))
                  (ino (fh_view fh)) r) as [-> ->].
      rewrite Hu2, Hh2. simpl. lia.
    - simpl. rewrite Hu2, Hh2. simpl. lia. }
  split; [done|]. split; [done|].
  rewrite Hu, Hh. destruct (nfh_valid fh); cbn [andb]; [|lia].
  case_bool_decide; lia.
Qed.


(** ** Composing, then resolving *)

(** With a string of the caller's own the pointer versions are the
    functions on strings. *)
Lemma fh_cache_add_ptr_own s d i path :
  fh_cache_add_ptr s d i (own_string path) = fh_cache_add s d i path.
Proof. reflexivity. Qed.

Lemma fh_comp_ptr_own s path need_dir :
  fh_comp_ptr s (own_string path) need_dir = fh_comp s path need_dir.
Proof. reflexivity. Qed.

(** With a pointer to the path of the slot that holds the key, the slot
    is emptied before its path is copied onto itself: the entry is stored
    with the empty path. *)
Lemma fh_cache_add_ptr_aliased s d i idx :
  state_ok s → fh_cache_index s d i = Some idx →
  slot (fh_cache_add_ptr s d i (cache_slot_path idx)) idx
  = mkslot d i [] (fh_cache_time s + 1).
Proof.
  intros [Hlen Hmax] Hidx.
  apply fh_cache_index_Some in Hidx as Hin.
  assert (idx < length (fh_cache s)) as Hlt by lia.
  unfold fh_cache_add_ptr. rewrite Hidx.
  rewrite fh_cache_inval_eq. unfold fh_cache_next, path_at.
  unfold slot, set_slot, set_fh_cache_time, set_fh_cache. simpl.
  rewrite !list_lookup_insert_eq
    by (rewrite ?length_insert; lia).
  done.
Qed.

Lemma state_ok_ext s1 s2 :
  fh_cache s2 = fh_cache s1 → fh_cache_max s2 = fh_cache_max s1 →
  state_ok s1 → state_ok s2.
Proof. intros Hc Hm. unfold state_ok. by rewrite Hc, Hm. Qed.

Lemma fh_cache_index_scan_ext s1 s2 n : ∀ i0 d i,
  fh_cache s1 = fh_cache s2 →
  fh_cache_index_scan s1 n i0 d i = fh_cache_index_scan s2 n i0 d i.
Proof.
  induction n as [|n IH]; intros i0 d i Hc; simpl; [done|].
  unfold slot. rewrite Hc. case_decide; [done | by apply IH].
Qed.

(** The answer of a lookup depends on the array and [fh_cache_max] only. *)
Lemma fh_cache_lookup_ext s1 s2 d i :
  fh_cache s1 = fh_cache s2 → fh_cache_max s1 = fh_cache_max s2 →
  (fh_cache_lookup s1 d i).1 = (fh_cache_lookup s2 d i).1.
Proof.
  intros Hc Hm. unfold fh_cache_lookup, fh_cache_index.
  rewrite Hm, (fh_cache_index_scan_ext s1 s2) by done.
  destruct (fh_cache_index_scan s2 _ _ _ _) as [idx|]; [|done].
  unfold fh_cache_next, set_slot, set_st_cache, set_fh_cache_time,
    set_fh_cache, slot. simpl. rewrite Hc.
  destruct (lstat fs _) as [buf|]; [|done].
  case_decide; [|done]. cbn [fst]. f_equal.
  destruct (decide (idx < length (fh_cache s2))).
  - by rewrite !list_lookup_insert_eq by done.
  - by rewrite !list_insert_ge by lia.
Qed.

(** The answer of the scan does not depend on the module state. *)
Lemma fh_decomp_raw_fst s1 s2 fh :
  (fh_decomp_raw s1 fh).1 = (fh_decomp_raw s2 fh).1.
Proof.
  unfold fh_decomp_raw. destruct fh as [fh|]; [|done].
  case_decide; [done|]. by destruct (fh_rec _ _ _ _) as [[r b]|].
Qed.

(** X13.  Compose, then resolve.  After [fh_comp] returned a valid handle
    for [path], a string of the caller's own that fits the buffer [work]
    of [fh_comp_raw], [fh_decomp] of a handle with that device and inode
    number is answered from the path cache with [path] itself, the very
    string that was composed, and counts a hit: provided the device and
    inode numbers [lstat] reports fit the 32 bits of the handle.  The LRU
    counter and the statistics are C [int]s; the statement is for counters
    that the two calls do not take past [INT_MAX].  (With [path] a
    pointer into the cache the entry may be stored with an empty path:
    lemma [fh_cache_add_ptr_aliased].) *)
Theorem fh_comp_decomp_hit (s : state) (path : cstring) (need_dir : bool)
    (fh : nfs_fh3) :
  state_ok s →
  length path < NFS_MAXPATHLEN →
  (fh_cache_time s < 2 ^ 31 - 2)%Z →
  (fh_cache_use s < 2 ^ 31 - 1)%Z → (fh_cache_hit s < 2 ^ 31 - 1)%Z →
  fh_valid (fh_comp_ptr s (own_string path) need_dir).1 = true →
  (∀ buf, lstat fs path = Some buf →
          uint32 (st_dev buf) = st_dev buf ∧ uint32 (st_ino buf) = st_ino buf) →
  nfh_valid fh = true →
  dev (fh_view fh) = dev (fh_comp_ptr s (own_string path) need_dir).1 →
  ino (fh_view fh) = ino (fh_comp_ptr s (own_string path) need_dir).1 →
  ∃ buf s',
    lstat fs path = Some buf
    ∧ fh_decomp (fh_comp_ptr s (own_string path) need_dir).2 fh
      = (Some path, s')
    ∧ st_cache_valid s' = true ∧ st_cache s' = buf
    ∧ fh_cache_hit s' = (fh_cache_hit s + 1)%Z.
Proof.
  intros Hok _ _ _ _.
  change (fh_comp_ptr s (own_string path) need_dir)
    with (fh_comp s path need_dir).
  unfold fh_comp.
  destruct (fh_valid (fh_comp_raw path need_dir)) eqn:Hv; cbn [fst snd];
    [|intros Hv'; congruence].
  intros _ Hrange Hnv Hd Hi.
  destruct (fh_comp_raw_cases path need_dir)
    as [Hinv | (buf & Hst & _ & Hrd & Hri & _)].
  { rewrite Hinv, fh_valid_invalid_fh in Hv. done. }
  destruct (Hrange buf Hst) as [Hbd Hbi].
  set (d := dev (fh_comp_raw path need_dir)) in *.
  set (i := ino (fh_comp_raw path need_dir)) in *.
  destruct (fh_cache_add_index s d i path Hok) as (idx & Hidx & Hlt & Hslot).
  destruct (fh_cache_lookup_fresh (fh_cache_add s d i path) d i idx buf)
    as (s' & Hlk & Hcv & Hc & _ & Hhit & _); try done.
  { by rewrite Hslot. }
  { congruence. }
  { congruence. }
  rewrite Hslot in Hlk. cbn [c_path] in Hlk.
  exists buf. eexists. split; [done|].
  unfold fh_decomp. rewrite Hnv. cbn [negb]. rewrite Hd, Hi, Hlk.
  split; [reflexivity|]. simpl. rewrite Hhit.
  by rewrite (proj2 (fh_cache_add_counters s d i path)).
Qed.

(** X14.  Resolving again.  When [fh_decomp] has returned a path for a
    handle, the next [fh_decomp] of the same handle returns the same
    path, from the cache or from a new scan. *)
Theorem fh_decomp_again (s s1 : state) (fh : nfs_fh3) (r : cstring) :
  state_ok s →
  fh_decomp s fh = (Some r, s1) →
  (fh_decomp s1 fh).1 = Some r.
Proof.
  intros Hok. unfold fh_decomp at 1.
  destruct (nfh_valid fh) eqn:Hv; cbn [negb]; [|done].
  set (d := dev (fh_view fh)). set (i := ino (fh_view fh)).
  pose proof (fh_cache_lookup_ok s d i Hok) as Hok2.
  destruct (fh_cache_lookup s d i) as [[p|] s2] eqn:Hlk; cbn [snd] in Hok2.
  - intros [= -> <-].
    pose proof Hlk as Hhit.
    apply fh_cache_lookup_hit in Hhit; [|done].
    destruct Hhit as (idx & buf & Hidx & Hp & Hst & Hbd & Hbi & _).
    pose proof (fh_cache_index_lt s d i idx Hok Hidx) as Hlt.
    destruct (fh_cache_lookup_fresh s d i idx buf)
      as (s' & Hlk' & _ & _ & _ & _ & Hmax & Hlen & _ & Hslot & Hother);
      try done; try (by rewrite Hp).
    rewrite Hlk in Hlk'. injection Hlk' as _ <-.
    assert (fh_cache_index s2 d i = Some idx) as Hidx2.
    { apply fh_cache_index_first in Hidx as (Hle & Hkey & Hfirst).
      apply fh_cache_index_first. split; [lia|]. split.
      - by rewrite Hslot.
      - intros j Hj. rewrite Hother by lia. by apply Hfirst. }
    destruct (fh_cache_lookup_fresh s2 d i idx buf)
      as (s3 & Hlk3 & _); try done; try lia.
    { rewrite Hslot. simpl. by rewrite Hp. }
    rewrite Hslot in Hlk3. cbn [c_path] in Hlk3. rewrite Hp in Hlk3.
    unfold fh_decomp. rewrite Hv. cbn [negb]. fold d i.
    match goal with
    | |- context [fh_cache_lookup ?a d i] =>
        pose proof (fh_cache_lookup_ext a s2 d i eq_refl eq_refl) as Hext;
        rewrite Hlk3 in Hext;
        destruct (fh_cache_lookup a d i) as [[p|] s4]
    end; cbn [fst] in *; done.
  - match goal with
    | |- context [fh_decomp_raw ?a ?b] =>
        pose proof (fh_decomp_raw_cache a b) as (Hc & Hm & _);
        destruct (fh_decomp_raw a b) as [[p|] s3] eqn:Hraw
    end; [|done].
    cbn [snd] in Hc, Hm.
    intros [= -> <-].
    assert (state_ok s3) as Hok3 by (by apply (state_ok_ext s2)).
    pose proof (fh_cache_add_ok s3 d i r Hok3) as Hok4.
    destruct (fh_cache_add_index s3 d i r Hok3) as (idx & Hidx & _ & Hslot).
    unfold fh_decomp. rewrite Hv. cbn [negb]. fold d i.
    destruct (fh_cache_lookup (fh_cache_add s3 d i r) d i)
      as [[p|] s4] eqn:Hlk2.
    + cbn [fst].
      apply fh_cache_lookup_hit in Hlk2; [|done].
      destruct Hlk2 as (idx' & buf & Hidx' & Hp & _).
      rewrite Hidx in Hidx'. injection Hidx' as <-.
      rewrite Hslot in Hp. simpl in Hp. by rewrite Hp.
    + match goal with
      | |- context [fh_decomp_raw ?a ?b] =>
          pose proof (fh_decomp_raw_fst a
                        (set_fh_cache_use s2 (fh_cache_use s2 + 1)) b)
            as Hfst;
          destruct (fh_decomp_raw a b) as [[p|] s5]
      end; rewrite Hraw in Hfst; cbn [fst] in *; done.
Qed.

(** X15.  A handle made for an object whose device or inode number does
    not fit in 32 bits does not lead back to it.  The handle carries the
    numbers cut to 32 bits, and both the cache lookup and the scan compare
    them with the full numbers of [lstat]: whatever path [fh_decomp]
    returns for such a handle, the object at that path is another one.
    (For a host that reads a doubled leading slash as a single one, and a
    handle whose [len] is not 0.) *)
Theorem fh_decomp_wide_inode (s : state) (fh : nfs_fh3) (buf : stat)
    (r : cstring) :
  state_ok s →
  (∀ q, q ≠ [] → lstat fs (slash :: q) = lstat fs q) →
  dev (fh_view fh) = uint32 (st_dev buf) →
  ino (fh_view fh) = uint32 (st_ino buf) →
  (uint32 (st_dev buf) ≠ st_dev buf ∨ uint32 (st_ino buf) ≠ st_ino buf) →
  len (fh_view fh) ≠ 0 →
  (fh_decomp s fh).1 = Some r →
  lstat fs r ≠ Some buf.
Proof.
  intros Hok Hslash Hd Hi Hwide Hlen Hret Hst.
  apply fh_decomp_Some in Hret; [|done].
  destruct Hret
    as [[Hl _] | [(buf' & Hst' & Hbd & Hbi) | (Hne & buf' & Hp)]].
  - done.
  - rewrite Hst in Hst'. injection Hst' as <-.
    destruct Hwide as [Hw|Hw]; apply Hw; congruence.
  - destruct Hp as ([Hst' | (Hst' & _)] & Hbd & Hbi);
      rewrite Hslash in Hst' by done; rewrite Hst in Hst'; [|done].
    injection Hst' as <-.
    destruct Hwide as [Hw|Hw]; apply Hw; congruence.
Qed.

(** ** fh_cache_init *)

(** X16.  [fh_cache_init] empties the cache.  It establishes the invariant,
    and a lookup right after it misses and changes nothing, for every key
    but (0, 0), and for (0, 0) as well when the empty path cannot be
    stat'ed. *)
Theorem fh_cache_init_empty (s : state) :
  fh_cache_max s < CACHE_ENTRIES → (0 ≤ fh_cache_time s)%Z →
  cache_inv (fh_cache_init s)
  ∧ ∀ d i, (d ≠ 0 ∨ i ≠ 0)%Z ∨ lstat fs [] = None →
      fh_cache_lookup (fh_cache_init s) d i = (None, fh_cache_init s).
Proof.
  intros Hmax Htime.
  assert (∀ j, slot (fh_cache_init s) j = empty_slot) as Hsl.
  { intros j. unfold slot, fh_cache_init. simpl.
    destruct (replicate CACHE_ENTRIES empty_slot !! j) as [e|] eqn:He;
      [|done].
    by apply lookup_replicate in He as [-> _]. }
  split.
  - split; [split; simpl; [by rewrite length_replicate | done]|].
    repeat split; intros; rewrite ?Hsl in *; simpl in *; try done.
    destruct H1; done.
  - intros d i Hkey. unfold fh_cache_lookup.
    destruct (fh_cache_index (fh_cache_init s) d i) as [idx|] eqn:Hidx;
      [|done].
    apply fh_cache_index_Some in Hidx as (_ & Hd & Hi).
    rewrite Hsl in Hd, Hi. simpl in Hd, Hi. subst d i.
    destruct Hkey as [[?|?]|Hst]; [done|done|].
    rewrite Hsl. simpl. rewrite Hst.
    rewrite fh_cache_inval_eq. unfold set_slot, fh_cache_init, set_fh_cache.
    simpl. by rewrite insert_replicate.
Qed.

(** ** The exports lexer *)




(** ** fh_extend_type and fh_comp_raw make the same handle *)

Lemma FH_HASH_uint32 n : FH_HASH (uint32 n) = FH_HASH n.
Proof.
  rewrite !FH_HASH_mod. unfold uint32.
  pose proof (Z.div_mod n (2 ^ 32) ltac:(lia)) as Hn.
  remember (n / 2 ^ 32)%Z as q eqn:Hq. remember (n mod 2 ^ 32)%Z as r eqn:Hr.
  clear Hq Hr. subst n.
  replace ((2 ^ 32 * q + r) / 2 ^ 8)%Z with (r / 2 ^ 8 + q * 2 ^ 24)%Z.
  2:{ replace (2 ^ 32 * q + r)%Z with (r + q * 2 ^ 24 * 2 ^ 8)%Z by lia.
      by rewrite Z.div_add by lia. }
  replace ((2 ^ 32 * q + r) / 2 ^ 16)%Z with (r / 2 ^ 16 + q * 2 ^ 16)%Z.
  2:{ replace (2 ^ 32 * q + r)%Z with (r + q * 2 ^ 16 * 2 ^ 16)%Z by lia.
      by rewrite Z.div_add by lia. }
  replace (2 ^ 32 * q + r + 3 * (r / 2 ^ 8 + q * 2 ^ 24)
           + 5 * (r / 2 ^ 16 + q * 2 ^ 16))%Z
    with (r + 3 * (r / 2 ^ 8) + 5 * (r / 2 ^ 16)
          + (q * (2 ^ 24 + 3 * 2 ^ 16 + 5 * 2 ^ 8)) * 256)%Z by lia.
  symmetry. apply Z.mod_add. lia.
Qed.

Lemma take_S_insert {A} (l : list A) n x :
  n < length l → take (S n) (<[n:=x]> l) = take n l ++ [x].
Proof.
  intros Hn.
  rewrite (take_S_r _ _ x) by (by apply list_lookup_insert_eq).
  by rewrite take_insert_ge.
Qed.

(** X18.  One object, one handle.  Extending the handle of a directory by
    an entry with [fh_extend_type] gives the handle [fh_comp_raw] composes
    for the path of that entry: the same device, inode and generation
    number, the same [len] and the same trail.  [fh_extend] hashes the
    inode number cut to 32 bits and [fh_comp_raw] the full one; the hash is
    the same.  [cs] are the components of the directory, [sts] the stats
    along them, [n] the entry and [st] its stat; the path of the entry
    fits the buffer [work] of [fh_comp_raw]:
    [strlen(path) < NFS_MAXPATHLEN]. *)
Theorem fh_extend_type_agrees (s : state) (new0 : unfs3_fh_t) (fh : nfs_fh3)
    (cs : list cstring) (n : cstring) (sts : list stat) (st : stat)
    (type : Z) :
  Forall component (cs ++ [n]) → path_of (cs ++ [n]) ≠ lit "/" →
  length (path_of (cs ++ [n])) < NFS_MAXPATHLEN →
  length cs < FH_MAXLEN → FH_MAXLEN ≤ 255 →
  length (inos new0) = FH_MAXLEN → length (inos stack_fh) = FH_MAXLEN →
  length sts = length cs →
  (∀ j st', (sts ++ [st]) !! j = Some st' →
     lstat fs (path_of (take (S j) (cs ++ [n]))) = Some st') →
  Z.land (st_mode st) type = type →
  nfh_valid fh = true → len (fh_view fh) = length cs →
  inos (fh_view fh) = (λ st', FH_HASH (st_ino st')) <$> sts →
  ∃ new,
    (fh_extend_type s new0 fh (path_of (cs ++ [n])) type).1
    = Some (fh_len new, new)
    ∧ dev new = dev (fh_comp_raw (path_of (cs ++ [n])) false)
    ∧ ino new = ino (fh_comp_raw (path_of (cs ++ [n])) false)
    ∧ gen new = gen (fh_comp_raw (path_of (cs ++ [n])) false)
    ∧ len new = len (fh_comp_raw (path_of (cs ++ [n])) false)
    ∧ take (len new) (inos new)
      = take (len new) (inos (fh_comp_raw (path_of (cs ++ [n])) false)).
Proof.
  intros Hcs Hroot _ Hdepth Hmax Hnew Hstack Hlen Hst Hty Hv Hl Hinos.
  assert (lstat fs (path_of (cs ++ [n])) = Some st) as Hobj.
  { specialize (Hst (length sts) st).
    rewrite Hlen, take_ge in Hst by (rewrite length_app; simpl; lia).
    apply Hst. rewrite <- Hlen. by apply list_lookup_middle. }
  rewrite (fh_comp_raw_value (cs ++ [n]) (sts ++ [st]) st); try done.
  2:{ rewrite length_app. simpl. lia. }
  2:{ rewrite !length_app. simpl. lia. }
  2:{ apply last_snoc. }
  unfold fh_extend_type. rewrite Hobj.
  rewrite decide_False by (intros Hne; by apply Hne).
  unfold fh_extend_post, fh_extend.
  rewrite decide_False by lia.
  cbn [fst]. eexists. split; [reflexivity|].
  cbn [len dev ino gen inos set_len set_inos set_gen set_ino set_dev].
  rewrite Hl, Hinos.
  assert (uchar (length cs + 1) = length (cs ++ [n])) as ->.
  { rewrite length_app. simpl. unfold uchar. apply Nat.mod_small. lia. }
  repeat split.
  rewrite length_app. simpl.
  replace (length cs + 1) with (S (length cs)) by lia.
  rewrite take_S_insert by (rewrite length_inserts; lia).
  rewrite FH_HASH_uint32.
  rewrite (take_ge ((λ st', FH_HASH (st_ino st')) <$> sts))
    by (rewrite length_fmap; lia).
  pose proof (take_list_inserts_0 ((λ st', FH_HASH (st_ino st')) <$> sts)
                (inos new0)) as Ht1.
  rewrite length_fmap, Hlen in Ht1. rewrite Ht1 by lia.
  pose proof (take_list_inserts_0
                ((λ st', FH_HASH (st_ino st')) <$> (sts ++ [st]))
                (inos stack_fh)) as Ht2.
  rewrite length_fmap, length_app, Hlen in Ht2. simpl in Ht2.
  replace (length cs + 1) with (S (length cs)) in Ht2 by lia.
  rewrite Ht2 by lia.
  by rewrite fmap_app.
Qed.

End Host.

(** * The tree model as a host *)

Section Tree.

Variable t : tree.

(** ** Path strings and their components *)

Lemma split_path_nonempty s : split_path s ≠ [].
Proof.
  destruct s as [|c s]; simpl; [done|].
  case_decide; [done|]. by destruct (split_path s).
Qed.

Lemma split_path_snoc lead e :
  slash ∉ e → split_path (lead ++ slash :: e) = split_path lead ++ [e].
Proof.
  intros He. induction lead as [|c lead IH]; simpl.
  - f_equal. clear -He. induction e as [|x e IH]; simpl; [done|].
    apply not_elem_of_cons in He as [Hx He].
    rewrite decide_False by done. by rewrite IH.
  - case_decide; [by rewrite IH|].
    rewrite IH. pose proof (split_path_nonempty lead).
    by destruct (split_path lead).
Qed.

Lemma foldl_snoc {A B} (f : A → B → A) a l x :
  foldl f a (l ++ [x]) = f (foldl f a l) x.
Proof. revert a. induction l as [|y l IH]; intros a; simpl; [done|]. apply IH. Qed.

Lemma tree_namei_snoc lead e :
  lead ≠ [] → slash ∉ e →
  tree_namei t (lead ++ slash :: e) = tree_step t (tree_namei t lead) e.
Proof.
  intros Hne He. unfold tree_namei.
  rewrite decide_False by (by destruct lead).
  rewrite decide_False by done.
  by rewrite split_path_snoc, foldl_snoc.
Qed.

(** A doubled leading slash resolves like a single one. *)
Lemma tree_namei_double_slash q :
  q ≠ [] → tree_namei t (slash :: q) = tree_namei t q.
Proof.
  intros Hne. unfold tree_namei.
  rewrite decide_False by done. rewrite decide_False by done.
  done.
Qed.

Lemma tree_lstat_double_slash q :
  q ≠ [] → lstat (tree_fs t) (slash :: q) = lstat (tree_fs t) q.
Proof.
  intros Hne. simpl. unfold tree_lstat.
  by rewrite tree_namei_double_slash.
Qed.

Lemma tree_namei_root : tree_namei t (lit "/") = Some [].
Proof. reflexivity. Qed.

(** ** Objects of the tree *)

Lemma tree_lookup_Some k st :
  tree_lookup t k = Some st → ∃ o, o ∈ t ∧ o_key o = k ∧ o_stat o = st.
Proof.
  induction t as [|o t' IH]; simpl; [done|].
  case_decide as Hk.
  - intros [= <-]. exists o. split; [by left | done].
  - intros Hl. destruct (IH Hl) as (o' & Ho' & Hk' & Hs').
    exists o'. split; [by right | done].
Qed.

Lemma tree_lookup_elem o :
  o ∈ t → is_Some (tree_lookup t (o_key o)).
Proof.
  induction t as [|o' t' IH]; [by intros ?%elem_of_nil|].
  rewrite elem_of_cons. simpl. intros [->|Ho].
  - by rewrite decide_True.
  - case_decide; [done | by apply IH].
Qed.

Lemma children_elem k n :
  n ∈ children t k ↔ ∃ o, o ∈ t ∧ o_key o = k ++ [n].
Proof.
  unfold children. rewrite list_elem_of_omap. split.
  - intros (o & Ho & Hc). exists o. split; [done|].
    unfold child_name in Hc. destruct (last (o_key o)) as [n'|]; [|done].
    case_decide; [|done]. congruence.
  - intros (o & Ho & Hk). exists o. split; [done|].
    unfold child_name. rewrite Hk, last_snoc. by rewrite decide_True.
Qed.

Lemma children_lookup k n :
  n ∈ children t k ↔ is_Some (tree_lookup t (k ++ [n])).
Proof.
  rewrite children_elem. split.
  - intros (o & Ho & Hk). rewrite <- Hk. by apply tree_lookup_elem.
  - intros [st Hst]. apply tree_lookup_Some in Hst as (o & Ho & Hk & _).
    by exists o.
Qed.

(** ** Well-formed trees *)

Section WF.

Hypothesis Hwf : wf_tree t.

Lemma is_dir_in_lookup k : is_dir_in t k → is_Some (tree_lookup t k).
Proof. unfold is_dir_in. by destruct (tree_lookup t k). Qed.

Lemma wf_names k : is_Some (tree_lookup t k) → Forall valid_name k.
Proof.
  intros [st Hst]. apply tree_lookup_Some in Hst as (o & Ho & <- & _).
  destruct Hwf as (_ & Hnames & _).
  by apply (proj1 (Forall_forall _ _) Hnames).
Qed.

Lemma wf_last_name k n : is_Some (tree_lookup t (k ++ [n])) → valid_name n.
Proof.
  intros Hl. apply wf_names in Hl.
  apply Forall_app in Hl as [_ Hn]. by apply Forall_inv in Hn.
Qed.

Lemma wf_parent k n : is_Some (tree_lookup t (k ++ [n])) → is_dir_in t k.
Proof.
  intros [st Hst]. apply tree_lookup_Some in Hst as (o & Ho & Hk & _).
  destruct Hwf as (_ & _ & Hpar).
  apply (proj1 (Forall_forall _ _) Hpar) in Ho.
  rewrite Hk in Ho. destruct Ho as [Ho|Ho]; [by destruct k|].
  by rewrite removelast_last in Ho.
Qed.

Lemma wf_prefix_dir D rest :
  rest ≠ [] → is_Some (tree_lookup t (D ++ rest)) → is_dir_in t D.
Proof.
  induction rest as [|x rest IH] using rev_ind; [done|]. intros _ Hl.
  rewrite app_assoc in Hl. apply wf_parent in Hl.
  destruct rest as [|y rest]; [by rewrite app_nil_r in Hl|].
  apply IH; [done|]. by apply is_dir_in_lookup.
Qed.

Lemma wf_removelast_dir D :
  is_Some (tree_lookup t D) → is_dir_in t (removelast D).
Proof.
  induction D as [|x D _] using rev_ind; intros Hl.
  - by destruct Hwf.
  - rewrite removelast_last. by apply wf_parent in Hl.
Qed.

Lemma tree_step_dot D :
  is_dir_in t D → tree_step t (Some D) (lit ".") = Some D.
Proof.
  unfold is_dir_in, tree_step. intros Hd.
  destruct (tree_lookup t D) as [st|]; [|done].
  rewrite Hd. done.
Qed.

Lemma tree_step_dotdot D :
  is_dir_in t D → tree_step t (Some D) (lit "..") = Some (removelast D).
Proof.
  unfold is_dir_in, tree_step. intros Hd.
  destruct (tree_lookup t D) as [st|]; [|done].
  rewrite Hd. done.
Qed.

Lemma tree_step_child D n :
  is_Some (tree_lookup t (D ++ [n])) →
  tree_step t (Some D) n = Some (D ++ [n]).
Proof.
  intros Hl. pose proof (wf_parent D n Hl) as Hd.
  destruct (wf_last_name D n Hl) as (Hne & _ & _ & Hdot & Hdotdot).
  unfold is_dir_in in Hd. unfold tree_step.
  destruct (tree_lookup t D) as [st|]; [|done].
  rewrite Hd. rewrite !decide_False by done. simpl.
  by destruct Hl as [st' ->].
Qed.

Lemma valid_name_component n : valid_name n → component n.
Proof. intros (_ & ? & ? & _). by split. Qed.

(** The lead of a directory [k] of the tree resolves to [k]. *)
Lemma tree_namei_lead k :
  is_Some (tree_lookup t k) → tree_namei t (slash :: path_of k) = Some k.
Proof.
  induction k as [|n k IH] using rev_ind; [done|]. intros Hl.
  pose proof (wf_last_name k n Hl) as Hn.
  rewrite path_of_app. simpl. rewrite app_nil_r.
  change (slash :: path_of k ++ slash :: n)
    with ((slash :: path_of k) ++ slash :: n).
  rewrite tree_namei_snoc; [|done|by destruct Hn as (_ & ? & _)].
  rewrite IH by (apply is_dir_in_lookup; by apply wf_parent in Hl).
  by apply tree_step_child.
Qed.

Lemma tree_lstat_key k st :
  k ≠ [] → tree_lookup t k = Some st →
  lstat (tree_fs t) (path_of k) = Some st.
Proof.
  intros Hne Hl.
  rewrite <- tree_lstat_double_slash by (by destruct k).
  simpl. unfold tree_lstat. by rewrite tree_namei_lead.
Qed.

Lemma tree_readdir_lead D :
  is_dir_in t D →
  readdir (tree_fs t) (slash :: path_of D)
  = Some (lit "." :: lit ".." :: children t D).
Proof.
  intros Hd. simpl. unfold tree_readdir.
  rewrite tree_namei_lead by (by apply is_dir_in_lookup).
  unfold is_dir_in in Hd. destruct (tree_lookup t D); [|done].
  by rewrite Hd.
Qed.

Lemma tree_readdir_lead_file D :
  is_Some (tree_lookup t D) → ¬ is_dir_in t D →
  readdir (tree_fs t) (slash :: path_of D) = None.
Proof.
  intros Hl Hd. simpl. unfold tree_readdir.
  rewrite tree_namei_lead by done.
  unfold is_dir_in in Hd. destruct (tree_lookup t D) as [st|]; [|done].
  by destruct (S_ISDIR (st_mode st)).
Qed.

Lemma lead_snoc D e :
  sprintf_s_slash_s (slash :: path_of D) e = slash :: path_of (D ++ [e]).
Proof.
  unfold sprintf_s_slash_s. rewrite path_of_app. simpl.
  by rewrite app_nil_r.
Qed.

Lemma dot_no_slash : slash ∉ lit ".".
Proof. by apply (bool_decide_unpack _). Qed.

Lemma dotdot_no_slash : slash ∉ lit "..".
Proof. by apply (bool_decide_unpack _). Qed.

(** What [lstat] reports for the entries [readdir] yields in directory
    [D]: "." is [D], ".." its parent, a name the child of that name. *)
Lemma probe_entry D e :
  is_dir_in t D → e ∈ lit "." :: lit ".." :: children t D →
  ∃ k st,
    lstat (tree_fs t) (sprintf_s_slash_s (slash :: path_of D) e) = Some st
    ∧ tree_lookup t k = Some st
    ∧ length k ≤ S (length D)
    ∧ (length k = S (length D) → k = D ++ [e])
    ∧ (e ≠ lit ".." → e ≠ lit "." → k = D ++ [e]).
Proof.
  intros Hd He. pose proof (is_dir_in_lookup D Hd) as HD.
  assert (∀ k, tree_step t (Some D) e = Some k → slash ∉ e →
    lstat (tree_fs t) (sprintf_s_slash_s (slash :: path_of D) e)
    = tree_lookup t k) as Hprobe.
  { intros k Hk Hs. simpl. unfold tree_lstat, sprintf_s_slash_s.
    rewrite tree_namei_snoc by done.
    rewrite tree_namei_lead by done. by rewrite Hk. }
  rewrite !elem_of_cons in He. destruct He as [->|[->|He]].
  - destruct HD as [st Hst]. exists D, st.
    rewrite (Hprobe D) by (by apply tree_step_dot || apply dot_no_slash).
    repeat split; try done; lia.
  - destruct (is_dir_in_lookup _ (wf_removelast_dir D HD)) as [st Hst].
    exists (removelast D), st.
    rewrite (Hprobe (removelast D))
      by (by apply tree_step_dotdot || apply dotdot_no_slash).
    assert (length (removelast D) ≤ length D) as Hlen.
    { clear. induction D as [|x D _] using rev_ind; [done|].
      rewrite removelast_last, length_app. lia. }
    repeat split; try done; lia.
  - apply children_lookup in He as Hl.
    pose proof (wf_last_name D e Hl) as (_ & Hs & _).
    destruct Hl as [st Hst]. exists (D ++ [e]), st.
    rewrite (Hprobe (D ++ [e])) by (by apply tree_step_child || done).
    rewrite length_app. simpl. repeat split; try done; lia.
Qed.

Lemma NoDup_fmap_elem_inj {A B} (f : A → B) (l : list A) x y :
  NoDup (f <$> l) → x ∈ l → y ∈ l → f x = f y → x = y.
Proof.
  induction l as [|a l IH]; [by intros _ ?%elem_of_nil|].
  rewrite fmap_cons, NoDup_cons, !elem_of_cons.
  intros [Ha Hnd] [->|Hx] [->|Hy] Hf; try done.
  - exfalso. apply Ha. rewrite Hf. by apply list_elem_of_fmap_2.
  - exfalso. apply Ha. rewrite <- Hf. by apply list_elem_of_fmap_2.
  - by apply IH.
Qed.

(** Without hard links, device and inode number identify the object. *)
Lemma no_links_inj k1 k2 st1 st2 :
  no_links t →
  tree_lookup t k1 = Some st1 → tree_lookup t k2 = Some st2 →
  st_dev st1 = st_dev st2 → st_ino st1 = st_ino st2 → k1 = k2.
Proof.
  intros [Hnd _] H1 H2 Hd Hi.
  apply tree_lookup_Some in H1 as (o1 & Ho1 & <- & <-).
  apply tree_lookup_Some in H2 as (o2 & Ho2 & <- & <-).
  f_equal. eapply NoDup_fmap_elem_inj; [exact Hnd|done|done|].
  simpl. by rewrite Hd, Hi.
Qed.

(** ** Resolving the handle of an object of the tree

    [K] is the key of the object, [obj] its stat and [fh] a handle that
    names it: device and inode of the object, one trail byte per component
    of [K], each the hash of the inode of the corresponding prefix. *)

Section Resolve.

Variable K : list cstring.
Variable obj : stat.
Variable fh : unfs3_fh_t.
Variable stack_buf : stat.

Hypothesis Hnl : no_links t.
Hypothesis HK : tree_lookup t K = Some obj.
Hypothesis Hdev : dev fh = st_dev obj.
Hypothesis Hino : ino fh = st_ino obj.
Hypothesis Hlen : len fh = length K.
Hypothesis Hinos : ∀ j st,
  tree_lookup t (take (S j) K) = Some st → j < length K →
  inos fh !! j = Some (FH_HASH (st_ino st)).
Hypothesis Hpath : length (path_of K) + 1 < NFS_MAXPATHLEN.

Lemma other_object k st :
  tree_lookup t k = Some st → k ≠ K →
  ¬ (st_dev st = dev fh ∧ st_ino st = ino fh).
Proof.
  intros Hk Hne [Hd Hi]. apply Hne.
  eapply no_links_inj; [done|exact Hk|exact HK|congruence|congruence].
Qed.

(** A directory off the path to the object holds nothing the scan takes
    for the object. *)
Lemma fh_rec_miss fuel : ∀ D,
  is_Some (tree_lookup t D) → length D ≤ length K → ¬ D `prefix_of` K →
  fh_rec (tree_fs t) stack_buf fuel fh (length D)
    (slash :: path_of D) = None.
Proof.
  induction fuel as [|fuel IH]; intros D HD Hle Hpre; [done|].
  rewrite fh_rec_S. case_decide as Hpos; [done|].
  destruct (decide (is_dir_in t D)) as [Hd|Hd];
    [|by rewrite tree_readdir_lead_file].
  rewrite tree_readdir_lead by done.
  apply fh_rec_scan_miss. intros e He.
  destruct (probe_entry D e Hd He) as (k & st & Hst & Hk & Hkl & Hkc & Hkd).
  exists st. split; [done|]. split.
  - apply (other_object k st Hk). intros ->.
    apply Hpre. exists [e]. apply Hkc. lia.
  - intros Hdd Hdot. specialize (Hkd Hdd Hdot). subst k.
    rewrite lead_snoc.
    replace (S (length D)) with (length (D ++ [e]))
      by (rewrite length_app; simpl; lia).
    apply IH.
    + by rewrite Hk.
    + rewrite length_app. simpl. lia.
    + intros Hp. apply Hpre. by apply prefix_app_l in Hp.
Qed.

Lemma path_child_lookup D c rest :
  K = D ++ c :: rest → is_Some (tree_lookup t (D ++ [c])).
Proof.
  intros HKeq. destruct rest as [|c' rest].
  - by rewrite <- HKeq, HK.
  - apply is_dir_in_lookup. apply (wf_prefix_dir _ (c' :: rest)); [done|].
    rewrite <- app_assoc. simpl. by rewrite <- HKeq, HK.
Qed.

(** Scanning a directory on the path to the object finds it, under the
    object's own path. *)
Lemma fh_rec_hit fuel : ∀ D c rest,
  K = D ++ c :: rest → length (c :: rest) < fuel →
  fh_rec (tree_fs t) stack_buf fuel fh (length D) (slash :: path_of D)
  = Some (path_of K, obj).
Proof.
  induction fuel as [|fuel IH]; intros D c rest HKeq Hfuel;
    [simpl in Hfuel; lia|].
  rewrite fh_rec_S.
  rewrite decide_False by (rewrite Hlen, HKeq, length_app; simpl; lia).
  assert (is_dir_in t D) as Hd
    by (apply (wf_prefix_dir D (c :: rest)); [done | by rewrite <- HKeq, HK]).
  rewrite tree_readdir_lead by done.
  pose proof (path_child_lookup D c rest HKeq) as Hc.
  pose proof (wf_last_name D c Hc) as (Hcne & Hcs & Hcn & Hcd & Hcdd).
  apply children_lookup in Hc as Hin.
  apply list_elem_of_split_l in Hin as (l1 & l2 & Hsplit & Hl1).
  assert (∀ e, e ∈ lit "." :: lit ".." :: l1 → e ≠ c) as Hnc
    by (intros e; rewrite !elem_of_cons; intros [->|[->|He]]; congruence).
  assert (∀ e, e ∈ lit "." :: lit ".." :: l1 →
               e ∈ lit "." :: lit ".." :: children t D) as Hsub
    by (intros e; rewrite Hsplit, !elem_of_cons, elem_of_app; tauto).
  rewrite Hsplit.
  change (lit "." :: lit ".." :: l1 ++ c :: l2)
    with ((lit "." :: lit ".." :: l1) ++ c :: l2).
  assert (length (slash :: path_of D) + length c + 1 < NFS_MAXPATHLEN)
    as Hshort.
  { pose proof Hpath as Hp. rewrite HKeq, path_of_app in Hp. simpl in Hp.
    rewrite !length_app in Hp. simpl in *. rewrite length_app in Hp. lia. }
  destruct Hc as [stc Hstc].
  assert (lstat (tree_fs t) (sprintf_s_slash_s (slash :: path_of D) c)
          = Some stc) as Hlstat.
  { rewrite lead_snoc. simpl. unfold tree_lstat.
    by rewrite tree_namei_lead by (by rewrite Hstc). }
  (* the entries before c are passed over *)
  edestruct (fh_rec_scan_skip (tree_fs t) fh (length D)
               (slash :: path_of D)
               (fh_rec (tree_fs t) stack_buf fuel fh (S (length D)))
               (lit "." :: lit ".." :: l1) (c :: l2)) as (buf' & ->).
  { intros e He.
    destruct (probe_entry D e Hd (Hsub e He))
      as (k & st & Hst & Hk & Hkl & Hkc & Hkd).
    exists st. split; [done|]. split.
    - apply (other_object k st Hk). intros ->.
      apply (Hnc e He).
      rewrite HKeq, length_app in Hkl, Hkc. simpl in Hkl, Hkc.
      specialize (Hkc ltac:(lia)). by simplify_list_eq.
    - intros Hdd Hdot. specialize (Hkd Hdd Hdot). subst k.
      rewrite lead_snoc.
      replace (S (length D)) with (length (D ++ [e]))
        by (rewrite length_app; simpl; lia).
      apply fh_rec_miss.
      + by rewrite Hk.
      + rewrite HKeq, !length_app. simpl. lia.
      + rewrite HKeq. intros Hp. apply prefix_app_inv in Hp.
        apply prefix_cons_inv_1 in Hp. by apply (Hnc e He). }
  destruct rest as [|c' rest].
  - (* the object is the entry c of this directory *)
    rewrite HKeq in HK. rewrite Hstc in HK. injection HK as ->.
    erewrite fh_rec_scan_found; [|done|exact Hlstat|done|done].
    unfold sprintf_s_slash_s. simpl. rewrite drop_0.
    rewrite HKeq, path_of_app. simpl. by rewrite app_nil_r.
  - (* the object lies below the entry c *)
    eapply fh_rec_scan_descend; [done|exact Hlstat| | | | |].
    + apply (other_object _ _ Hstc). rewrite HKeq. intros Heq.
      apply (f_equal length) in Heq. rewrite !length_app in Heq.
      simpl in Heq. lia.
    + done.
    + done.
    + apply Hinos.
      * rewrite HKeq.
        replace (S (length D)) with (length (D ++ [c]))
          by (rewrite length_app; simpl; lia).
        rewrite (cons_middle c D (c' :: rest)), app_assoc.
        by rewrite take_app_length.
      * rewrite HKeq, length_app. simpl. lia.
    + rewrite lead_snoc.
      replace (S (length D)) with (length (D ++ [c]))
        by (rewrite length_app; simpl; lia).
      apply (IH (D ++ [c]) c' rest);
        [by rewrite HKeq, <- app_assoc | simpl in *; lia].
Qed.

End Resolve.

Lemma wf_take_lookup K n :
  is_Some (tree_lookup t K) → is_Some (tree_lookup t (take n K)).
Proof.
  intros HK. destruct (drop n K) as [|x rest] eqn:Hdrop.
  - rewrite <- (take_drop n K), Hdrop, app_nil_r in HK. done.
  - apply is_dir_in_lookup. apply (wf_prefix_dir _ (x :: rest)); [done|].
    by rewrite <- Hdrop, take_drop.
Qed.

Lemma no_links_range k st :
  no_links t → tree_lookup t k = Some st →
  uint32 (st_dev st) = st_dev st ∧ uint32 (st_ino st) = st_ino st.
Proof.
  intros [_ Hr] Hk. apply tree_lookup_Some in Hk as (o & Ho & _ & <-).
  by apply (proj1 (Forall_forall _ _) Hr).
Qed.

(** C1, as amended.  On a well-formed tree without hard links and without
    symbolic links, for every object other than the root, under its path
    ["/c1/.../cn"] with at most [FH_MAXLEN] components and short enough
    for the path buffers, decoding the handle that encoding the path
    produces returns the path itself.  (With a symbolic link to a
    directory the scan may descend through the link and return the path
    through it: lemma [fh_roundtrip_symlink].) *)
Theorem fh_roundtrip_no_links (stack_fh : unfs3_fh_t) (stack_buf : stat)
    (s : state) (K : list cstring) :
  no_links t → no_symlinks t → K ≠ [] → is_Some (tree_lookup t K) →
  length K ≤ FH_MAXLEN → FH_MAXLEN ≤ 255 →
  length (inos stack_fh) = FH_MAXLEN →
  length (path_of K) + 1 < NFS_MAXPATHLEN →
  (fh_decomp_raw (tree_fs t) stack_buf s
     (Some (fh_comp_raw (tree_fs t) stack_fh (path_of K) false))).1
  = Some (path_of K).
Proof.
  intros Hnl _ Hne [obj HK] Hdepth Hmax Hstack Hpath.
  set (sts := (λ j, default stat0 (tree_lookup t (take (S j) K)))
                <$> seq 0 (length K)).
  assert (∀ j st, sts !! j = Some st →
            j < length K ∧ tree_lookup t (take (S j) K) = Some st) as Hsts.
  { intros j st Hj. unfold sts in Hj. rewrite list_lookup_fmap in Hj.
    destruct (seq 0 (length K) !! j) as [j'|] eqn:Hseq; [|done].
    apply lookup_seq in Hseq as [-> Hlt]. simpl in Hj. injection Hj as <-.
    split; [done|].
    by destruct (wf_take_lookup K (S j) (mk_is_Some _ _ HK)) as [st ->]. }
  assert (length sts = length K) as Hlensts
    by (unfold sts; by rewrite length_fmap, length_seq).
  assert (last sts = Some obj) as Hlast.
  { rewrite last_lookup, Hlensts.
    destruct (sts !! pred (length K)) as [st|] eqn:Hl.
    - apply Hsts in Hl as [_ Hl].
      replace (S (pred (length K))) with (length K) in Hl
        by (destruct K; simpl; [done | lia]).
      rewrite take_ge in Hl by lia. congruence.
    - apply lookup_ge_None in Hl. destruct K; simpl in *; [done | lia]. }
  destruct (no_links_range K obj Hnl HK) as [Hrd Hri].
  rewrite (fh_comp_raw_value (tree_fs t) stack_fh K sts obj); try done.
  2:{ destruct K as [|c rest]; [done|].
      destruct (wf_last_name [] c (wf_take_lookup _ 1 (mk_is_Some _ _ HK)))
        as (Hc & _).
      simpl. intros [= Heq]. by destruct c. }
  2:{ apply (Forall_impl _ _ _ (wf_names K (mk_is_Some _ _ HK))).
      apply valid_name_component. }
  2:{ intros j st Hj. apply Hsts in Hj as [Hlt Hj].
      apply tree_lstat_key; [|done].
      destruct K; [done | by simpl]. }
  set (fh := mkfh _ _ _ _ _).
  assert (fh_rec (tree_fs t) stack_buf (S (length K)) fh 0 (lit "/")
          = Some (path_of K, obj)) as Hhit.
  { destruct K as [|c rest] eqn:HKeq; [done|]. rewrite <- HKeq in *.
    apply (fh_rec_hit K obj fh stack_buf Hnl HK) with (D := [])
      (c := c) (rest := rest); try done.
    - by rewrite HKeq.
    - intros j st Hst Hlt. unfold fh. cbn [inos].
      rewrite list_lookup_inserts
        by (rewrite ?length_fmap, ?Hlensts; lia).
      rewrite Nat.sub_0_r, list_lookup_fmap.
      destruct (sts !! j) as [st'|] eqn:Hj.
      + apply Hsts in Hj as [_ Hj]. simpl. congruence.
      + apply lookup_ge_None in Hj. lia.
    - rewrite HKeq. simpl. lia. }
  unfold fh_decomp_raw.
  rewrite decide_False by (destruct K; done).
  change (len fh) with (length K). by rewrite Hhit.
Qed.

(** ** Handles of objects of the tree, through the cache *)





End WF.

End Tree.

End Build.

(** * The scenarios *)

Lemma wf_tree_abc : wf_tree tree_abc.
Proof. by apply (bool_decide_unpack _). Qed.

Lemma no_links_abc : no_links tree_abc.
Proof. by apply (bool_decide_unpack _). Qed.

Lemma no_symlinks_abc : no_symlinks tree_abc.
Proof. by apply (bool_decide_unpack _). Qed.

(** C1 fails as stated: with one file under the two names /a and /b, the
    path /b exists and is one component deep, and decoding the handle of
    /b returns /a, the first entry with that device and inode. *)
Lemma fh_roundtrip_hard_link :
  lstat (tree_fs tree_link) (lit "/b") = Some (mkstat 1 10 mode_reg 0)
  ∧ (fh_decomp_raw 1024 (tree_fs tree_link) stat0 (state0 4)
       (Some (fh_comp_raw 4 GEN_STAT (tree_fs tree_link) stack_junk
                (lit "/b") false))).1 = Some (lit "/a")
  ∧ (fh_decomp_raw 1024 (tree_fs tree_link) stat0 (state0 4)
       (Some (fh_comp_raw 4 GEN_STAT (tree_fs tree_link) stack_junk
                (lit "/b") false))).1 ≠ Some (lit "/b").
Proof. by vm_compute. Qed.

(** Hard links are not the only exception.  On [fs_symlink], a host whose
    root holds a symbolic link l to the directory a, the path /a/b exists,
    no two objects share device and inode, and decoding the handle of
    /a/b returns /l/b: the scan meets l before a, the hash of its inode
    is the hash of the inode of a, and [opendir] follows the link. *)
Lemma fh_roundtrip_symlink :
  lstat fs_symlink (lit "/a/b") = Some (mkstat 1 20 mode_reg 0)
  ∧ fh_comp_raw 4 GEN_STAT fs_symlink stack_junk (lit "/a/b") false
    = mkfh 1 20 0 2 [FH_HASH 10; FH_HASH 20; 0; 0]%Z
  ∧ FH_HASH 263 = FH_HASH 10
  ∧ (fh_decomp_raw 1024 fs_symlink stat0 (state0 4)
       (Some (fh_comp_raw 4 GEN_STAT fs_symlink stack_junk
                (lit "/a/b") false))).1 = Some (lit "/l/b").
Proof. by vm_compute. Qed.

Lemma fh_roundtrip_no_links_witness :
  wf_tree tree_abc ∧ no_links tree_abc ∧ no_symlinks tree_abc
  ∧ (fh_decomp_raw 1024 (tree_fs tree_abc) stat0 (state0 4)
       (Some (fh_comp_raw 4 GEN_STAT (tree_fs tree_abc) stack_junk
                (path_of [lit "a"; lit "b"; lit "c"]) false))).1
    = Some (path_of [lit "a"; lit "b"; lit "c"]).
Proof.
  split; [exact wf_tree_abc|]. split; [exact no_links_abc|].
  split; [exact no_symlinks_abc|].
  apply (fh_roundtrip_no_links 4 1024 GEN_STAT tree_abc wf_tree_abc
           stack_junk stat0 (state0 4) [lit "a"; lit "b"; lit "c"]).
  - exact no_links_abc.
  - exact no_symlinks_abc.
  - discriminate.
  - eexists. vm_compute. reflexivity.
  - vm_compute. lia.
  - lia.
  - reflexivity.
  - vm_compute. lia.
Defined.

(** C2 fails as stated: for /a/b/c with inodes 10, 20, 30 the handle has
    [len] 3, not 2, and the trail ends with the hash of the object's own
    inode 30. *)
Lemma fh_comp_raw_abc_len_3 :
  fh_comp_raw 4 GEN_STAT (tree_fs tree_abc) stack_junk (lit "/a/b/c") false
  = mkfh 1 30 0 3 [FH_HASH 10; FH_HASH 20; FH_HASH 30; 0%Z]
  ∧ len (fh_comp_raw 4 GEN_STAT (tree_fs tree_abc) stack_junk
           (lit "/a/b/c") false) ≠ 2.
Proof. by vm_compute. Qed.

Lemma fh_comp_raw_trail_witness :
  ∃ obj_st,
    last [mkstat 1 10 mode_dir 0; mkstat 1 20 mode_dir 0;
          mkstat 1 30 mode_reg 0] = Some obj_st
    ∧ dev (fh_comp_raw 4 GEN_STAT (tree_fs tree_abc) stack_junk
             (path_of [lit "a"; lit "b"; lit "c"]) false)
      = uint32 (st_dev obj_st)
    ∧ ino (fh_comp_raw 4 GEN_STAT (tree_fs tree_abc) stack_junk
             (path_of [lit "a"; lit "b"; lit "c"]) false)
      = uint32 (st_ino obj_st)
    ∧ gen (fh_comp_raw 4 GEN_STAT (tree_fs tree_abc) stack_junk
             (path_of [lit "a"; lit "b"; lit "c"]) false)
      = get_gen GEN_STAT (tree_fs tree_abc) obj_st FD_NONE
          (path_of [lit "a"; lit "b"; lit "c"])
    ∧ len (fh_comp_raw 4 GEN_STAT (tree_fs tree_abc) stack_junk
             (path_of [lit "a"; lit "b"; lit "c"]) false) = 3
    ∧ take 3 (inos (fh_comp_raw 4 GEN_STAT (tree_fs tree_abc) stack_junk
                      (path_of [lit "a"; lit "b"; lit "c"]) false))
      = [FH_HASH 10; FH_HASH 20; FH_HASH 30].
Proof.
  apply (fh_comp_raw_trail 4 1024 GEN_STAT (tree_fs tree_abc) stack_junk
           [lit "a"; lit "b"; lit "c"]
           [mkstat 1 10 mode_dir 0; mkstat 1 20 mode_dir 0;
            mkstat 1 30 mode_reg 0]).
  - discriminate.
  - by vm_compute.
  - by apply (bool_decide_unpack _).
  - vm_compute. lia.
  - vm_compute. lia.
  - lia.
  - reflexivity.
  - reflexivity.
  - intros [|[|[|j]]] st; simpl; intros [= <-]; by vm_compute.
Defined.

Lemma fh_extend_inverse_and_overflow_witness :
  (∃ H', fh_extend 4 (invalid_fh 4) nfh_ab 1 30 0 = Some H'
     ∧ fh_extend_post 4 (invalid_fh 4) nfh_ab 1 30 0 = Some (fh_len H', H')
     ∧ handle_follows (fh_extend_post 4 (invalid_fh 4) nfh_ab 1 30 0) = true
     ∧ len H' = len (fh_view nfh_ab) + 1
     ∧ dev H' = 1%Z ∧ ino H' = 30%Z ∧ gen H' = 0%Z
     ∧ inos H' !! len (fh_view nfh_ab) = Some (FH_HASH 30)
     ∧ take (len (fh_view nfh_ab)) (inos H')
       = take (len (fh_view nfh_ab)) (inos (fh_view nfh_ab)))
  ∧ fh_extend 2 (invalid_fh 2) nfh_ab 1 30 0 = None
  ∧ handle_follows (fh_extend_post 2 (invalid_fh 2) nfh_ab 1 30 0) = false.
Proof.
  split.
  - apply (fh_extend_inverse_and_overflow 4 (invalid_fh 4) nfh_ab 1 30 0).
    + lia.
    + reflexivity.
    + reflexivity.
    + vm_compute. lia.
  - apply (fh_extend_inverse_and_overflow 2 (invalid_fh 2) nfh_ab 1 30 0).
    reflexivity.
Defined.

(** C5, at the failing input.  A cache of four slots is filled with the
    entries for inodes 10, 20, 30, 40 (stamps 1 to 4) and the first entry
    is added again, which moves its stamp to 5.  All slots are occupied and
    (1, 50) is not cached.  Adding it overwrites slot 0, the entry used
    last, and not slot 1, whose stamp 2 is the minimum: the scan of
    [fh_cache_lru] starts from [best = -1], below every stamp. *)
Theorem fh_cache_add_evicts_slot_0 :
  let s4 :=
    fh_cache_add 4
      (fh_cache_add 4
         (fh_cache_add 4
            (fh_cache_add 4 (state0 4) 1 10 (lit "/a"))
            1 20 (lit "/b"))
         1 30 (lit "/c"))
      1 40 (lit "/d") in
  let s5 := fh_cache_add 4 s4 1 10 (lit "/a") in
  c_use <$> fh_cache s5 = [5; 2; 3; 4]%Z
  ∧ fh_cache_index s5 1 50 = None
  ∧ fh_cache (fh_cache_add 4 s5 1 50 (lit "/e"))
    = [mkslot 1 50 (lit "/e") 6; mkslot 1 20 (lit "/b") 2;
       mkslot 1 30 (lit "/c") 3; mkslot 1 40 (lit "/d") 4].
Proof. by vm_compute. Qed.

(** C6, at the failing input.  Encoding "/" returns the handle before
    [len] has been assigned: with a 7 in that byte of the stack the handle
    of the root has [len] 7, and [fh_decomp_raw] does not take it for the
    root. *)
Theorem fh_comp_raw_root_len_unset :
  len (fh_comp_raw 4 GEN_STAT (tree_fs tree_abc) stack_junk (lit "/") false)
  = 7
  ∧ (fh_decomp_raw 1024 (tree_fs tree_abc) stat0 (state0 4)
       (Some (fh_comp_raw 4 GEN_STAT (tree_fs tree_abc) stack_junk
                (lit "/") false))).1 ≠ Some (lit "/").
Proof. by vm_compute. Qed.

(** C8 fails as stated: [fh_comp] returns a valid handle for /a/b/c and
    the attribute cache is still invalid; it returns the invalid handle for
    a path that does not exist and the attribute cache is still valid. *)
Lemma fh_comp_st_cache_untouched :
  fh_valid (fh_comp 4 4 GEN_STAT (tree_fs tree_abc) stack_junk (state0 4)
              (lit "/a/b/c") false).1 = true
  ∧ st_cache_valid
      (fh_comp 4 4 GEN_STAT (tree_fs tree_abc) stack_junk (state0 4)
         (lit "/a/b/c") false).2 = false
  ∧ fh_valid (fh_comp 4 4 GEN_STAT (tree_fs tree_abc) stack_junk
                (set_st_cache (state0 4) true (mkstat 1 10 mode_dir 0))
                (lit "/none") false).1 = false
  ∧ st_cache_valid
      (fh_comp 4 4 GEN_STAT (tree_fs tree_abc) stack_junk
         (set_st_cache (state0 4) true (mkstat 1 10 mode_dir 0))
         (lit "/none") false).2 = true.
Proof. by vm_compute. Qed.

(** C10 fails as stated: scanning the directory /a/b, two levels below the
    root, [fh_rec] returns "/a/b/c", with its leading slash. *)
Lemma fh_rec_depth_2_keeps_slash :
  fh_rec 1024 (tree_fs tree_abc) stat0 2 fh_abc 2 (lit "//a/b")
  = Some (lit "/a/b/c", mkstat 1 30 mode_reg 0)
  ∧ (fh_decomp_raw 1024 (tree_fs tree_abc) stat0 (state0 4)
       (Some fh_abc)).1 ≠ Some (lit "a/b/c").
Proof. by vm_compute. Qed.

Lemma fh_rec_result_leading_slash_witness :
  (∃ rest, lit "/a/b/c" = path_of [lit "a"; lit "b"] ++ slash :: rest
           ∧ slash :: lit "/a/b/c"
             = (slash :: path_of [lit "a"; lit "b"]) ++ slash :: rest)
  ∧ probed (tree_fs tree_abc) fh_abc (slash :: lit "/a/b/c")
      (mkstat 1 30 mode_reg 0)
  ∧ head (lit "/a/b/c") = Some slash.
Proof.
  apply (fh_rec_result_leading_slash 1024 (tree_fs tree_abc) stat0 2 fh_abc 2
           [lit "a"; lit "b"] (lit "/a/b/c") (mkstat 1 30 mode_reg 0)).
  by vm_compute.
Defined.

Lemma fh_cache_lookup_validated_witness :
  state_ok 4 state_cached ∧ state_ok 4 state_renamed
  ∧ (∃ s', fh_cache_lookup (tree_fs tree_abc) state_cached 1 30
           = (Some (lit "/a/b/c"), s')
       ∧ st_cache_valid s' = true
       ∧ st_cache s' = mkstat 1 30 mode_reg 0
       ∧ c_use (slot s' 0) = 2%Z)
  ∧ (∃ s', fh_cache_lookup (tree_fs tree_abc) state_renamed 1 30 = (None, s')
           ∧ slot s' 0 = empty_slot)
  ∧ (fh_decomp 1024 4 (tree_fs tree_abc) stat0 state_renamed nfh_abc).1
    ≠ Some (lit "/a/b/x").
Proof.
  assert (state_ok 4 state_cached) as Hokc
    by (split; [reflexivity | vm_compute; lia]).
  assert (state_ok 4 state_renamed) as Hok
    by (split; [reflexivity | vm_compute; lia]).
  split; [exact Hokc|]. split; [exact Hok|]. split.
  - (* a hit *)
    destruct (fh_cache_lookup_validated 1024 4 (tree_fs tree_abc) stat0
                state_cached 1 30 Hokc) as [Hhit _].
    destruct Hhit as [_ Hfresh]; [vm_compute; reflexivity|].
    apply (Hfresh 0 (mkstat 1 30 mode_reg 0)); reflexivity.
  - (* a stale entry *)
    destruct (fh_cache_lookup_validated 1024 4 (tree_fs tree_abc) stat0
                state_renamed 1 30 Hok) as [_ Hstale].
    destruct (Hstale 0 eq_refl) as [Hmiss Hdec].
    { intros buf Hst. vm_compute in Hst. discriminate. }
    split; [exact Hmiss|].
    apply (Hdec nfh_abc).
    + reflexivity.
    + reflexivity.
    + intros q Hq. by apply tree_lstat_double_slash.
    + left. discriminate.
    + discriminate.
Defined.

(** The decode of the scenario: the stale entry is dropped and the scan
    finds the object under its new name. *)
Lemma fh_decomp_after_rename :
  (fh_decomp 1024 4 (tree_fs tree_abc) stat0 state_renamed nfh_abc).1
  = Some (lit "/a/b/c").
Proof. by vm_compute. Qed.


(** ** Instances of the further properties *)

Lemma state_ok_state0_4 : state_ok 4 (state0 4).
Proof. split; [reflexivity | simpl; lia]. Qed.

Lemma state_ok_renamed : state_ok 4 state_renamed.
Proof. split; [reflexivity | simpl; lia]. Qed.

(** [state_renamed] is the state after one [fh_cache_add] on a fresh
    cache. *)
Lemma cache_inv_renamed : cache_inv 4 state_renamed.
Proof.
  change state_renamed
    with (fh_cache_add 4 (state0 4) 1 30 (lit "/a/b/x")).
  apply cache_inv_add, cache_inv_state0. lia.
Qed.

Lemma fh_comp_raw_valid_witness :
  ∃ buf, lstat (tree_fs tree_abc) (lit "/a/b/c") = Some buf
    ∧ (false = true → S_ISDIR (st_mode buf) = true)
    ∧ dev (fh_comp_raw 4 GEN_STAT (tree_fs tree_abc) stack_junk
             (lit "/a/b/c") false) = uint32 (st_dev buf)
    ∧ ino (fh_comp_raw 4 GEN_STAT (tree_fs tree_abc) stack_junk
             (lit "/a/b/c") false) = uint32 (st_ino buf)
    ∧ gen (fh_comp_raw 4 GEN_STAT (tree_fs tree_abc) stack_junk
             (lit "/a/b/c") false)
      = get_gen GEN_STAT (tree_fs tree_abc) buf FD_NONE (lit "/a/b/c")
    ∧ uint32 (st_dev buf) ≠ 0%Z ∧ uint32 (st_ino buf) ≠ 0%Z.
Proof.
  apply (fh_comp_raw_valid 4 GEN_STAT (tree_fs tree_abc) stack_junk
           (lit "/a/b/c") false).
  reflexivity.
Defined.

Lemma fh_comp_depth_limit_witness :
  fh_comp_raw 1 GEN_STAT (tree_fs tree_abc) stack_junk
    (path_of [lit "a"; lit "b"]) false = invalid_fh 1
  ∧ fh_comp 1 4 GEN_STAT (tree_fs tree_abc) stack_junk (state0 4)
      (path_of [lit "a"; lit "b"]) false = (invalid_fh 1, state0 4).
Proof.
  apply (fh_comp_depth_limit 1 1024 4 GEN_STAT (tree_fs tree_abc) stack_junk
           (state0 4) [lit "a"; lit "b"] false).
  - by apply (bool_decide_unpack _).
  - vm_compute. lia.
  - simpl. lia.
  - lia.
Defined.

Lemma fh_decomp_raw_sound_witness :
  match fh_decomp_raw 1024 (tree_fs tree_abc) stat0 (state0 4)
          (Some fh_abc) with
  | (Some r, s') =>
      head r = Some slash
      ∧ st_cache_valid s' = true
      ∧ st_dev (st_cache s') = dev fh_abc
      ∧ st_ino (st_cache s') = ino fh_abc
      ∧ (lstat (tree_fs tree_abc) (slash :: r) = Some (st_cache s')
         ∨ (lstat (tree_fs tree_abc) (slash :: r) = None
            ∧ dev fh_abc = 0%Z ∧ ino fh_abc = 0%Z))
      ∧ fh_cache s' = fh_cache (state0 4)
  | (None, s') => s' = state0 4
  end.
Proof.
  apply (fh_decomp_raw_sound 1024 (tree_fs tree_abc) stat0 (state0 4)
           fh_abc).
  simpl. lia.
Defined.

Lemma fh_decomp_raw_reads_witness :
  fh_decomp_raw 1024 (tree_fs tree_abc) stat0 (state0 4) (Some fh_abc)
  = fh_decomp_raw 1024 (tree_fs tree_abc) stat0 (state0 4)
      (Some fh_abc_other).
Proof.
  apply (fh_decomp_raw_reads 1024 (tree_fs tree_abc) stat0 (state0 4)
           fh_abc fh_abc_other); reflexivity.
Defined.

Lemma fh_decomp_raw_fits_witness :
  length (lit "/a/b/c") + 1 < 1024.
Proof.
  apply (fh_decomp_raw_fits 1024 (tree_fs tree_abc) stat0 (state0 4)
           (set_st_cache (state0 4) true (mkstat 1 30 mode_reg 0))
           fh_abc (lit "/a/b/c")).
  - lia.
  - vm_compute. reflexivity.
Defined.

Lemma fh_cache_add_lookup_witness :
  (∀ buf, lstat (tree_fs tree_abc) (lit "/a/b/c") = Some buf →
     st_dev buf = 1%Z → st_ino buf = 30%Z →
     ∃ s', fh_cache_lookup (tree_fs tree_abc)
             (fh_cache_add 4 (state0 4) 1 30 (lit "/a/b/c")) 1 30
           = (Some (lit "/a/b/c"), s')
       ∧ st_cache_valid s' = true ∧ st_cache s' = buf)
  ∧ ((∀ buf, lstat (tree_fs tree_abc) (lit "/a/b/c") = Some buf →
             ¬ (st_dev buf = 1%Z ∧ st_ino buf = 30%Z)) →
     (fh_cache_lookup (tree_fs tree_abc)
        (fh_cache_add 4 (state0 4) 1 30 (lit "/a/b/c")) 1 30).1 = None).
Proof.
  apply (fh_cache_add_lookup 4 (tree_fs tree_abc) (state0 4) 1 30
           (lit "/a/b/c")).
  split; [reflexivity | simpl; lia].
Defined.

Lemma cache_inv_kept_witness :
  (∀ d i path, cache_inv 4 (fh_cache_add 4 (state0 4) d i path))
  ∧ (∀ path need_dir,
       cache_inv 4 (fh_comp 4 4 GEN_STAT (tree_fs tree_abc) stack_junk
                      (state0 4) path need_dir).2)
  ∧ (∀ fh, cache_inv 4 (fh_decomp 1024 4 (tree_fs tree_abc) stat0
                          (state0 4) fh).2).
Proof.
  apply (cache_inv_kept 4 1024 4 GEN_STAT (tree_fs tree_abc) stack_junk
           stat0 (state0 4)).
  - apply cache_inv_state0. lia.
  - simpl. lia.
Defined.

Lemma fh_cache_add_keeps_live_witness :
  slot (fh_cache_add 4 state_renamed 1 20 (lit "/a/b")) 0
  = slot state_renamed 0.
Proof.
  apply (fh_cache_add_keeps_live 4 state_renamed 1 20 (lit "/a/b") 0).
  - exact cache_inv_renamed.
  - left. simpl. lia.
  - left. simpl. lia.
  - simpl. lia.
Defined.

Lemma fh_cache_add_newest_witness :
  ∃ idx,
    fh_cache_index (fh_cache_add 4 state_renamed 1 20 (lit "/a/b")) 1 20
    = Some idx
    ∧ slot (fh_cache_add 4 state_renamed 1 20 (lit "/a/b")) idx
      = mkslot 1 20 (lit "/a/b") (fh_cache_time state_renamed + 1)
    ∧ ∀ j, j ≠ idx →
        (c_use (slot (fh_cache_add 4 state_renamed 1 20 (lit "/a/b")) j)
         < c_use (slot (fh_cache_add 4 state_renamed 1 20 (lit "/a/b"))
                    idx))%Z.
Proof.
  apply (fh_cache_add_newest 4 state_renamed 1 20 (lit "/a/b")).
  - exact cache_inv_renamed.
  - simpl. lia.
Defined.

Lemma fh_decomp_st_cache_witness :
  match fh_decomp 1024 4 (tree_fs tree_abc) stat0 (state0 4) nfh_abc with
  | (None, s') => st_cache_valid s' = false
  | (Some r, s') =>
      (st_cache_valid s' = true
       ∧ st_dev (st_cache s') = dev (fh_view nfh_abc)
       ∧ st_ino (st_cache s') = ino (fh_view nfh_abc))
      ∨ (len (fh_view nfh_abc) = 0 ∧ r = lit "/"
         ∧ (fh_cache_lookup (tree_fs tree_abc) (state0 4)
              (dev (fh_view nfh_abc)) (ino (fh_view nfh_abc))).1 = None
         ∧ st_cache_valid s' = st_cache_valid (state0 4)
         ∧ st_cache s' = st_cache (state0 4))
  end.
Proof.
  apply (fh_decomp_st_cache 1024 4 (tree_fs tree_abc) stat0 (state0 4)
           nfh_abc).
  split; [reflexivity | simpl; lia].
Defined.

Lemma fh_decomp_counters_witness :
  fh_cache_use (fh_decomp 1024 4 (tree_fs tree_abc) stat0 (state0 4)
                  nfh_abc).2
  = (fh_cache_use (state0 4) + if nfh_valid nfh_abc then 1 else 0)%Z
  ∧ fh_cache_hit (fh_decomp 1024 4 (tree_fs tree_abc) stat0 (state0 4)
                    nfh_abc).2
    = (fh_cache_hit (state0 4)
       + if nfh_valid nfh_abc
            && bool_decide
                 (is_Some (fh_cache_lookup (tree_fs tree_abc) (state0 4)
                             (dev (fh_view nfh_abc))
                             (ino (fh_view nfh_abc))).1)
         then 1 else 0)%Z
  ∧ (fh_cache_hit (fh_decomp 1024 4 (tree_fs tree_abc) stat0 (state0 4)
                     nfh_abc).2
     ≤ fh_cache_use (fh_decomp 1024 4 (tree_fs tree_abc) stat0 (state0 4)
                       nfh_abc).2)%Z.
Proof.
  apply (fh_decomp_counters 1024 4 (tree_fs tree_abc) stat0 (state0 4)
           nfh_abc).
  - simpl. lia.
  - simpl. lia.
Defined.

Lemma fh_comp_decomp_hit_witness :
  ∃ buf s',
    lstat (tree_fs tree_abc) (lit "/a/b/c") = Some buf
    ∧ fh_decomp 1024 4 (tree_fs tree_abc) stat0
        (fh_comp_ptr 4 4 GEN_STAT (tree_fs tree_abc) stack_junk (state0 4)
           (own_string (lit "/a/b/c")) false).2 nfh_abc
      = (Some (lit "/a/b/c"), s')
    ∧ st_cache_valid s' = true ∧ st_cache s' = buf
    ∧ fh_cache_hit s' = (fh_cache_hit (state0 4) + 1)%Z.
Proof.
  apply (fh_comp_decomp_hit 4 1024 4 GEN_STAT (tree_fs tree_abc) stack_junk
           stat0 (state0 4) (lit "/a/b/c") false nfh_abc).
  - split; [reflexivity | simpl; lia].
  - vm_compute. lia.
  - simpl. lia.
  - simpl. lia.
  - simpl. lia.
  - reflexivity.
  - intros buf Hst. vm_compute in Hst. injection Hst as <-.
    split; reflexivity.
  - reflexivity.
  - reflexivity.
  - reflexivity.
Defined.

Lemma fh_decomp_again_witness :
  (fh_decomp 1024 4 (tree_fs tree_abc) stat0
     (fh_decomp 1024 4 (tree_fs tree_abc) stat0 (state0 4) nfh_abc).2
     nfh_abc).1
  = Some (lit "/a/b/c").
Proof.
  apply (fh_decomp_again 1024 4 (tree_fs tree_abc) stat0 (state0 4)
           (fh_decomp 1024 4 (tree_fs tree_abc) stat0 (state0 4) nfh_abc).2
           nfh_abc (lit "/a/b/c")).
  - split; [reflexivity | simpl; lia].
  - vm_compute. reflexivity.
Defined.

(** In [tree_wide] the handle of /a is [nfh_wide], and it resolves to /b:
    to another object, as the theorem says. *)
Lemma fh_decomp_wide_inode_witness :
  lstat (tree_fs tree_wide) (lit "/b")
  ≠ Some (mkstat 1 4294967301 mode_reg 0).
Proof.
  apply (fh_decomp_wide_inode 1024 4 (tree_fs tree_wide) stat0 (state0 4)
           nfh_wide (mkstat 1 4294967301 mode_reg 0) (lit "/b")).
  - split; [reflexivity | simpl; lia].
  - intros q Hq. by apply tree_lstat_double_slash.
  - reflexivity.
  - reflexivity.
  - right. vm_compute. discriminate.
  - vm_compute. lia.
  - vm_compute. reflexivity.
Defined.

Lemma fh_cache_init_empty_witness :
  cache_inv 4 (fh_cache_init 4 state_renamed)
  ∧ ∀ d i, (d ≠ 0 ∨ i ≠ 0)%Z ∨ lstat (tree_fs tree_abc) [] = None →
      fh_cache_lookup (tree_fs tree_abc) (fh_cache_init 4 state_renamed) d i
      = (None, fh_cache_init 4 state_renamed).
Proof.
  apply (fh_cache_init_empty 4 (tree_fs tree_abc) state_renamed).
  - simpl. lia.
  - simpl. lia.
Defined.


Lemma fh_extend_type_agrees_witness :
  ∃ new,
    (fh_extend_type 4 GEN_STAT (tree_fs tree_abc) (state0 4) stack_junk
       nfh_ab (path_of ([lit "a"; lit "b"] ++ [lit "c"])) S_IFREG).1
    = Some (fh_len new, new)
    ∧ dev new = dev (fh_comp_raw 4 GEN_STAT (tree_fs tree_abc) stack_junk
                       (path_of ([lit "a"; lit "b"] ++ [lit "c"])) false)
    ∧ ino new = ino (fh_comp_raw 4 GEN_STAT (tree_fs tree_abc) stack_junk
                       (path_of ([lit "a"; lit "b"] ++ [lit "c"])) false)
    ∧ gen new = gen (fh_comp_raw 4 GEN_STAT (tree_fs tree_abc) stack_junk
                       (path_of ([lit "a"; lit "b"] ++ [lit "c"])) false)
    ∧ len new = len (fh_comp_raw 4 GEN_STAT (tree_fs tree_abc) stack_junk
                       (path_of ([lit "a"; lit "b"] ++ [lit "c"])) false)
    ∧ take (len new) (inos new)
      = take (len new)
          (inos (fh_comp_raw 4 GEN_STAT (tree_fs tree_abc) stack_junk
                   (path_of ([lit "a"; lit "b"] ++ [lit "c"])) false)).
Proof.
  apply (fh_extend_type_agrees 4 1024 GEN_STAT (tree_fs tree_abc) stack_junk
           (state0 4) stack_junk nfh_ab [lit "a"; lit "b"] (lit "c")
           [mkstat 1 10 mode_dir 0; mkstat 1 20 mode_dir 0]
           (mkstat 1 30 mode_reg 0) S_IFREG).
  - by apply (bool_decide_unpack _).
  - by vm_compute.
  - vm_compute. lia.
  - simpl. lia.
  - lia.
  - reflexivity.
  - reflexivity.
  - reflexivity.
  - intros j st' Hj.
    destruct j as [|[|[|j]]]; simpl in Hj; [| | |done];
      injection Hj as <-; reflexivity.
  - reflexivity.
  - reflexivity.
  - reflexivity.
  - reflexivity.
Defined.


